(** * hg-export-tool: the branch-head disambiguation of [exporter.py]

    A shallow embedding of [src/exporter.py] (Python 2).  The first part
    models the pure computation of [get_heads] and [fix_branches]: the head
    records, the grouping by branch, the sort and the choice of new branch
    names.  The second part models the calls that touch the process and the
    file system (working directory, sub-processes, [sys.exit]) in a state
    and exception monad. *)

From Stdlib Require Import Ascii.
From stdpp Require Import gmap strings list fin_maps sorting pretty.

Open Scope Z_scope.

(** ** Head records *)

(** One entry of the JSON list printed by
    [hg heads --closed --topo --template json], with the four fields that
    [get_heads] reads. *)
Record RawHead := {
  node : string;
  raw_branch : string;
  date : Z * Z;
  bookmarks : list string
}.

(** The dictionary that [get_heads] builds for each head. *)
Record Head := {
  hash : string;
  branch : string;
  timestamp : Z;
  bookmark : option string
}.

Global Instance Head_eq_dec : EqDecision Head.
Proof. solve_decision. Defined.

(** Body of the loop of [get_heads]: the UTC offset is added to the local
    time, and of several bookmarks only the first is kept. *)
Definition head_record (head : RawHead) : Head :=
  {| hash := node head;
     branch := raw_branch head;
     timestamp := fst (date head) + snd (date head);
     bookmark := match bookmarks head with
                 | [] => None
                 | b :: _ => Some b
                 end |}.

Definition head_records (heads : list RawHead) : list Head :=
  head_record <$> heads.

(** ** Grouping and sorting *)

(** [heads_by_branch[head['branch']].append(head)] on a
    [defaultdict(list)]: a missing key starts from the empty list. *)
Definition append_head (heads_by_branch : gmap string (list Head))
    (head : Head) : gmap string (list Head) :=
  partial_alter (λ heads, Some (default [] heads ++ [head]))
    (branch head) heads_by_branch.

Definition group_by_branch (all_heads : list Head) : gmap string (list Head) :=
  foldl append_head ∅ all_heads.

(** [heads.sort(reverse=True, key=lambda head: head['timestamp'])].
    Python's sort is stable and [reverse=True] keeps the original order of
    elements with equal keys; a stable insertion sort, newest first, stands
    for it. *)
Fixpoint insert_newest_first (head : Head) (heads : list Head) : list Head :=
  match heads with
  | [] => [head]
  | x :: rest =>
      if decide (timestamp head < timestamp x)
      then x :: insert_newest_first head rest
      else head :: x :: rest
  end.

Fixpoint sort_newest_first (heads : list Head) : list Head :=
  match heads with
  | [] => []
  | head :: rest => insert_newest_first head (sort_newest_first rest)
  end.

(** The dictionary after the two first loops of [fix_branches]. *)
Definition heads_by_branch (all_heads : list Head) : gmap string (list Head) :=
  sort_newest_first <$> group_by_branch all_heads.

(** ** New branch names *)

(** [branch + '-anonymous-%d' % n] *)
Definition anonymous_name (branch : string) (n : N) : string :=
  branch +:+ "-anonymous-" +:+ pretty n.

(** The [if]/[else] at the top of the inner loop of [fix_branches]:
    the new name, and the next value [itertools.count] will give.  The
    counter is only advanced by [counter.next()], in the [else] branch. *)
Definition new_branch_name (branch : string) (counter : N) (head : Head)
    : string * N :=
  match bookmark head with
  | Some b => (b, counter)
  | None => (anonymous_name branch counter, N.succ counter)
  end.

(** The heads the inner loop visits, each with the name it is given. *)
Fixpoint renames (branch : string) (counter : N) (heads : list Head)
    : list (Head * string) :=
  match heads with
  | [] => []
  | head :: rest =>
      let '(name, counter') := new_branch_name branch counter head in
      (head, name) :: renames branch counter' rest
  end.

(** [for head in heads[1:]] with [counter = itertools.count(1)]. *)
Definition renames_of_group (group : string * list Head) : list (Head * string) :=
  renames group.1 1%N (tail group.2).

(** All the renames of one run, group after group as
    [heads_by_branch.items()] gives them.  Python 2 does not fix the order
    of a dictionary; [map_to_list] is one order, and the properties below
    only use which groups the dictionary holds. *)
Definition rename_plan (all_heads : list Head) : list (Head * string) :=
  map_to_list (heads_by_branch all_heads) ≫= renames_of_group.

(** The branch name every head has once the renames are done: the first
    head of a group is not visited by the inner loop and keeps the name of
    the group, the others have the name of their rename. *)
Definition names_of_group (group : string * list Head) : list (Head * string) :=
  match group.2 with
  | [] => []
  | primary :: _ => (primary, group.1) :: renames_of_group group
  end.

Definition final_names (all_heads : list Head) : list (Head * string) :=
  map_to_list (heads_by_branch all_heads) ≫= names_of_group.

(** ** The process and the file system *)

Inductive Errno := EEXIST | ENOENT | ENOTDIR.

Global Instance Errno_eq_dec : EqDecision Errno.
Proof. solve_decision. Defined.

(** The exceptions the script can meet.  [SystemExit] is what [sys.exit]
    raises; uncaught, it ends the process with that status. *)
Inductive Exn :=
  | OSError (errno : Errno)
  | CalledProcessError (returncode : Z) (cmd : list string)
  | SystemExit (code : Z)
  | IndexError
  | ValueError
  | IOError
  | UnboundLocalError
  | ShutilError.

Inductive Node := File | Dir.

Global Instance Node_eq_dec : EqDecision Node.
Proof. solve_decision. Defined.

(** One child process: where it was started, its command line, and the
    environment when one was passed with [env=]. *)
Record Call := {
  call_cwd : string;
  call_argv : list string;
  call_env : option (gmap string string)
}.

(** What the interpreter sees and changes.  [fs] holds the paths that
    exist, as the interpreter's own [os] and [shutil] calls name or make
    them: a path is a key, a directory stands for the tree below it, and
    two different strings are two different paths.  [calls] is the list of
    child processes run so far, oldest first. *)
Record World := {
  cwd : string;
  fs : gmap string Node;
  sys_argv : list string;
  stdout : list string;
  stderr : list string;
  calls : list Call;
  urandom_reads : nat
}.

Definition set_cwd (d : string) (w : World) : World :=
  {| cwd := d; fs := fs w; sys_argv := sys_argv w; stdout := stdout w;
     stderr := stderr w; calls := calls w; urandom_reads := urandom_reads w |}.

Definition set_fs (f : gmap string Node) (w : World) : World :=
  {| cwd := cwd w; fs := f; sys_argv := sys_argv w; stdout := stdout w;
     stderr := stderr w; calls := calls w; urandom_reads := urandom_reads w |}.

Definition set_sys_argv (a : list string) (w : World) : World :=
  {| cwd := cwd w; fs := fs w; sys_argv := a; stdout := stdout w;
     stderr := stderr w; calls := calls w; urandom_reads := urandom_reads w |}.

Definition add_stdout (s : string) (w : World) : World :=
  {| cwd := cwd w; fs := fs w; sys_argv := sys_argv w;
     stdout := stdout w ++ [s];
     stderr := stderr w; calls := calls w; urandom_reads := urandom_reads w |}.

Definition add_stderr (s : string) (w : World) : World :=
  {| cwd := cwd w; fs := fs w; sys_argv := sys_argv w; stdout := stdout w;
     stderr := stderr w ++ [s];
     calls := calls w; urandom_reads := urandom_reads w |}.

Definition add_call (c : Call) (w : World) : World :=
  {| cwd := cwd w; fs := fs w; sys_argv := sys_argv w; stdout := stdout w;
     stderr := stderr w; calls := calls w ++ [c];
     urandom_reads := urandom_reads w |}.

Definition add_urandom_read (w : World) : World :=
  {| cwd := cwd w; fs := fs w; sys_argv := sys_argv w; stdout := stdout w;
     stderr := stderr w; calls := calls w;
     urandom_reads := S (urandom_reads w) |}.

(** What the script takes from its platform and from the programs it
    runs: library functions on paths, the values of a few module
    constants, and the behaviour of the child processes.  A child process
    is given by its exit status and its output, which may depend on the
    children run before it; it has a working directory of its own, and
    the paths of [fs] are only created and removed by the interpreter.

    Three fields say what the file system does under [os.makedirs] and
    [shutil.copytree], from the paths that exist:
    - [os_makedirs_ancestors F path]: the directories above [path] that
      [os.makedirs(path)] makes before it comes to [path] itself;
    - [os_makedirs_error F path]: the error that stops [os.makedirs(path)]
      after these, if one does: a file among the directories above
      [path] ([ENOTDIR]), a directory that cannot be written to;
    - [shutil_copy_errors F src dst]: whether an entry of [src] cannot be
      copied; [shutil.copytree] then goes on with the other entries and
      raises [shutil.Error] at the end. *)
Class Platform := {
  os_name : string;
  os_pathsep : string;
  os_path_join : string → string → string;
  os_path_basename : string → string;
  os_path_dirname : string → string;
  os_path_abspath : string → string → string;
  gettempdir : string;
  sys_executable : string;
  os_environ : gmap string string;
  here : string;
  os_urandom : nat → nat → list Byte.byte;
  child : list Call → Call → Z * string;
  json_loads : string → option (list RawHead);
  json_load_file : string → option (list (string * string));
  os_makedirs_ancestors : gmap string Node → string → list string;
  os_makedirs_error : gmap string Node → string → option Errno;
  shutil_copy_errors : gmap string Node → string → string → bool
}.

(** *** The monad: a state with exceptions *)

Inductive Res (A : Type) :=
  | Ok (a : A)
  | Raise (e : Exn).
Global Arguments Ok {A} a.
Global Arguments Raise {A} e.

Definition M (A : Type) : Type := World → Res A * World.

Global Instance M_ret : MRet M := λ A a w, (Ok a, w).

Global Instance M_bind : MBind M := λ A B f m w,
  match m w with
  | (Ok a, w') => f a w'
  | (Raise e, w') => (Raise e, w')
  end.

Definition raise {A} (e : Exn) : M A := λ w, (Raise e, w).

(** [try: body finally: final]: [final] runs whatever [body] did; an
    exception of [final] replaces the outcome of [body]. *)
Definition try_finally {A} (body : M A) (final : M unit) : M A := λ w,
  let '(r, w1) := body w in
  match final w1 with
  | (Ok _, w2) => (r, w2)
  | (Raise e, w2) => (Raise e, w2)
  end.

(** [try: body except ...]: [handler] says which exceptions are caught. *)
Definition try_except {A} (body : M A) (handler : Exn → option (M A)) : M A :=
  λ w,
  match body w with
  | (Ok a, w') => (Ok a, w')
  | (Raise e, w') =>
      match handler e with
      | Some h => h w'
      | None => (Raise e, w')
      end
  end.

Fixpoint for_each {A} (l : list A) (body : A → M unit) : M unit :=
  match l with
  | [] => mret tt
  | x :: rest => body x ;; for_each rest body
  end.

Fixpoint map_each {A B} (l : list A) (body : A → M B) : M (list B) :=
  match l with
  | [] => mret []
  | x :: rest => y ← body x; ys ← map_each rest body; mret (y :: ys)
  end.

(** *** Strings *)

Definition newline : ascii := Ascii.ascii_of_nat 10.

(** [s.rstrip('\n')] *)
Fixpoint rstrip_newline (s : string) : string :=
  match s with
  | EmptyString => EmptyString
  | String c rest =>
      let r := rstrip_newline rest in
      if decide (r = EmptyString ∧ c = newline) then EmptyString
      else String c r
  end.

(** [arg.split('=', 1)]: at most one cut, at the first ['=']. *)
Fixpoint split_eq_once (s : string) : list string :=
  match s with
  | EmptyString => [EmptyString]
  | String c rest =>
      if decide (c = "="%char) then [EmptyString; rest]
      else match split_eq_once rest with
           | first :: others => String c first :: others
           | [] => []
           end
  end.

Definition hex_digit (n : N) : ascii :=
  default "0"%char (String.list_ascii_of_string "0123456789abcdef" !! N.to_nat n).

(** [binascii.hexlify] *)
Fixpoint hexlify (data : list Byte.byte) : string :=
  match data with
  | [] => EmptyString
  | b :: rest =>
      String (hex_digit (Byte.to_N b / 16))
        (String (hex_digit (Byte.to_N b `mod` 16)) (hexlify rest))
  end.

(** The directories [paths], and no other path. *)
Definition dirs (paths : list string) : gmap string Node :=
  list_to_map ((λ p, (p, Dir)) <$> paths).

Section with_platform.
Context `{Platform}.

(** [FAST_EXPORT_DIR = os.path.join(here, 'fast-export')] *)
Definition FAST_EXPORT_DIR : string := os_path_join here "fast-export".

(** *** Library calls *)

Definition os_getcwd : M string := λ w,
  match fs w !! cwd w with
  | Some Dir => (Ok (cwd w), w)
  | Some File => (Raise (OSError ENOTDIR), w)
  | None => (Raise (OSError ENOENT), w)
  end.

Definition os_chdir (directory : string) : M unit := λ w,
  match fs w !! directory with
  | Some Dir => (Ok tt, set_cwd directory w)
  | Some File => (Raise (OSError ENOTDIR), w)
  | None => (Raise (OSError ENOENT), w)
  end.

Definition os_path_exists (path : string) : M bool := λ w,
  (Ok (bool_decide (is_Some (fs w !! path))), w).

Definition os_path_isdir (path : string) : M bool := λ w,
  (Ok (bool_decide (fs w !! path = Some Dir)), w).

Definition abspath (path : string) : M string := λ w,
  (Ok (os_path_abspath (cwd w) path), w).

(** [os.makedirs(path)]: on a path that exists, [EEXIST] and nothing is
    made.  On a free path the missing directories above it are made, then
    the path itself; an error on the way leaves what was made before it.
    A path that exists is never replaced: the union keeps the node of
    [fs w]. *)
Definition os_makedirs (path : string) : M unit := λ w,
  match fs w !! path with
  | Some _ => (Raise (OSError EEXIST), w)
  | None =>
      let made := os_makedirs_ancestors (fs w) path in
      match os_makedirs_error (fs w) path with
      | Some errno => (Raise (OSError errno), set_fs (fs w ∪ dirs made) w)
      | None => (Ok tt, set_fs (fs w ∪ dirs (made ++ [path])) w)
      end
  end.

(** [os.listdir(path)], for its errors only: the names are not used. *)
Definition os_listdir (path : string) : M unit := λ w,
  match fs w !! path with
  | Some Dir => (Ok tt, w)
  | Some File => (Raise (OSError ENOTDIR), w)
  | None => (Raise (OSError ENOENT), w)
  end.

(** The loop of [shutil.copytree] over the entries of [src] and the
    [raise] after it: the errors of the entries are collected and raised
    together, as [shutil.Error], when the other entries have been
    copied. *)
Definition copy_entries (src dst : string) : M unit := λ w,
  if shutil_copy_errors (fs w) src dst
  then (Raise ShutilError, w) else (Ok tt, w).

(** [shutil.copytree(src, dst)]: it lists [src], makes [dst] with
    [os.makedirs] and copies the entries; [dst] stays when it raises
    after that. *)
Definition shutil_copytree (src dst : string) : M unit :=
  os_listdir src ;;
  os_makedirs dst ;;
  copy_entries src dst.

Definition shutil_rmtree (path : string) : M unit := λ w,
  match fs w !! path with
  | Some Dir => (Ok tt, set_fs (delete path (fs w)) w)
  | Some File => (Raise (OSError ENOTDIR), w)
  | None => (Raise (OSError ENOENT), w)
  end.

Definition urandom (n : nat) : M (list Byte.byte) := λ w,
  (Ok (os_urandom (urandom_reads w) n), add_urandom_read w).

Definition print (s : string) : M unit := λ w, (Ok tt, add_stdout s w).

Definition sys_stderr_write (s : string) : M unit := λ w,
  (Ok tt, add_stderr s w).

Definition sys_exit {A} (code : Z) : M A := raise (SystemExit code).

(** A child process is started in the working directory of the moment
    and the interpreter waits for it. *)
Definition run_child (argv : list string) (env : option (gmap string string))
    : M (Z * string) := λ w,
  let c := {| call_cwd := cwd w; call_argv := argv; call_env := env |} in
  (Ok (child (calls w) c), add_call c w).

Definition check_call_env (argv : list string)
    (env : option (gmap string string)) : M unit :=
  r ← run_child argv env;
  if decide (r.1 = 0) then mret tt else raise (CalledProcessError r.1 argv).

Definition subprocess_check_call (argv : list string) : M unit :=
  check_call_env argv None.

Definition subprocess_check_output (argv : list string) : M string :=
  r ← run_child argv None;
  if decide (r.1 = 0) then mret r.2 else raise (CalledProcessError r.1 argv).

(** *** The functions of the script *)

Definition mkdir_p (path : string) : M unit :=
  try_except (os_makedirs path) (λ exc,
    match exc with
    | OSError errno => Some (
        isdir ← os_path_isdir path;
        if bool_decide (errno = EEXIST) && isdir then mret tt else raise exc)
    | _ => None
    end).

(** The context manager: [body] is the block under [with]. *)
Definition switch_directory {A} (directory : string) (body : M A) : M A :=
  saved ← os_getcwd;
  try_finally (os_chdir directory ;; body) (os_chdir saved).

Definition already_exists_msg (git_repo : string) : string :=
  "repo " +:+ git_repo +:+
  " already exists, please delete it and run this script again".

Definition init_git_repo (git_repo : string) : M unit :=
  exists_ ← os_path_exists git_repo;
  (if exists_ : bool
   then print (already_exists_msg git_repo) ;; sys_exit 1
   else mret tt) ;;
  mkdir_p git_repo ;;
  subprocess_check_call ["git"; "init"; git_repo] ;;
  switch_directory git_repo
    (subprocess_check_call ["git"; "config"; "core.ignoreCase"; "false"]).

Definition copy_hg_repo (hg_repo : string) : M string :=
  random ← urandom 16;
  let random_hex := hexlify random in
  let hg_repo_copy :=
    os_path_join gettempdir (os_path_basename hg_repo +:+ "-" +:+ random_hex) in
  shutil_copytree hg_repo hg_repo_copy ;;
  mret hg_repo_copy.

Definition hg_heads_cmd : list string :=
  ["hg"; "heads"; "--closed"; "--topo"; "--template"; "json"].

Definition get_heads (hg_repo : string) : M (list Head) :=
  output ← switch_directory hg_repo (subprocess_check_output hg_heads_cmd);
  heads ← match json_loads output with
          | Some heads => mret heads
          | None => raise ValueError
          end;
  mret (head_records heads).

(** The block under [with switch_directory(hg_repo)] in [fix_branches]. *)
Definition amend_head (hg_repo : string) (head : Head)
    (new_name : string) : M unit :=
  switch_directory hg_repo (
    subprocess_check_call ["hg"; "up"; hash head] ;;
    subprocess_check_call ["hg"; "phase"; "--draft"; "--force"; hash head] ;;
    subprocess_check_call ["hg"; "branch"; new_name] ;;
    out ← subprocess_check_output
            ["hg"; "log"; "-r"; hash head; "--template"; "{desc}"];
    let msg := rstrip_newline out in
    subprocess_check_call ["hg"; "commit"; "--amend"; "-m"; msg]).

(** [for head in heads[1:]], from a given value of the counter. *)
Fixpoint rename_heads (hg_repo branch : string) (counter : N)
    (heads : list Head) : M unit :=
  match heads with
  | [] => mret tt
  | head :: rest =>
      let '(name, counter') := new_branch_name branch counter head in
      amend_head hg_repo head name ;;
      rename_heads hg_repo branch counter' rest
  end.

Definition fix_branches (hg_repo : string) : M unit :=
  all_heads ← get_heads hg_repo;
  for_each (map_to_list (heads_by_branch all_heads)) (λ group,
    rename_heads hg_repo group.1 1%N (tail group.2)).

Definition convert (hg_repo_copy git_repo : string)
    (fast_export_args : list string) (bash : string) : M unit :=
  switch_directory git_repo (
    let env := <["PYTHON" := sys_executable]> os_environ in
    let env := <["PATH" := FAST_EXPORT_DIR +:+ os_pathsep +:+
                           default "" (env !! "PATH")]> env in
    check_call_env
      ([bash; "hg-fast-export.sh"; "-r"; hg_repo_copy] ++ fast_export_args)
      (Some env) ;;
    subprocess_check_call ["git"; "checkout"; "master"]).

Definition process_repo (hg_repo git_repo : string)
    (fast_export_args : list string) (bash : string) : M unit :=
  init_git_repo git_repo ;;
  hg_repo_copy ← copy_hg_repo hg_repo;
  try_finally
    (fix_branches hg_repo_copy ;;
     convert hg_repo_copy git_repo fast_export_args bash)
    (shutil_rmtree hg_repo_copy).

Definition missing_bash_msg : string :=
  "Missing --bash command line argument with path to git bash" +:+
  String newline EmptyString.

Definition missing_mapping_msg : string :=
  "Error: no REPO_MAPPING_FILE passed as command line argument" +:+
  String newline EmptyString.

(** The first loop of [main], over the copy [sys.argv[:]] from index [i]
    on.  [BASH] is the local variable, [None] while it is not bound.  The
    [else] belongs to the [if], so it runs for every argument that does
    not start with [--bash], the name of the script first. *)
Fixpoint scan_bash (i : nat) (args : list string) (BASH : option string)
    : M (option string) :=
  match args with
  | [] => mret BASH
  | arg :: rest =>
      if String.prefix "--bash" arg then
        (λ w, (Ok tt, set_sys_argv (delete i (sys_argv w)) w)) ;;
        match split_eq_once arg !! 1%nat with
        | Some value => mret (Some value)
        | None => raise IndexError
        end
      else
        (if decide (os_name = "nt")
         then sys_stderr_write missing_bash_msg ;; sys_exit 1
         else mret tt) ;;
        scan_bash (S i) rest (Some "/bin/bash")
  end.

Definition main : M unit :=
  argv ← (λ w, (Ok (sys_argv w), w));
  BASH ← scan_bash 0 argv None;
  argv ← (λ w, (Ok (sys_argv w), w));
  REPO_MAPPING_FILE ← match argv !! 1%nat with
                      | Some file => mret file
                      | None =>
                          sys_stderr_write missing_mapping_msg ;; sys_exit 1
                      end;
  let fast_export_args := drop 2 argv in
  REPO_MAPPING_FILE ← abspath REPO_MAPPING_FILE;
  let basedir := os_path_dirname REPO_MAPPING_FILE in
  repo_mapping ← match json_load_file REPO_MAPPING_FILE with
                 | Some mapping => mret mapping
                 | None => raise IOError
                 end;
  fast_export_args ← map_each fast_export_args (λ arg,
    exists_ ← os_path_exists arg;
    if exists_ : bool then abspath arg else mret arg);
  for_each repo_mapping (λ repos,
    bash ← match BASH with
           | Some bash => mret bash
           | None => raise UnboundLocalError
           end;
    process_repo (os_path_join basedir repos.1) (os_path_join basedir repos.2)
      fast_export_args bash).

End with_platform.

(** ** Predicates of the statements *)

Definition on_branch (b : string) : Head → Prop := λ h, branch h = b.
Definition at_time (t : Z) : Head → Prop := λ h, timestamp h = t.
Definition unnamed : Head → Prop := λ h, bookmark h = None.

Global Instance on_branch_dec b h : Decision (on_branch b h).
Proof. unfold on_branch. apply _. Defined.
Global Instance at_time_dec t h : Decision (at_time t h).
Proof. unfold at_time. apply _. Defined.
Global Instance unnamed_dec h : Decision (unnamed h).
Proof. unfold unnamed. apply _. Defined.

(** [keeps_cwd m]: after [m], however it ends, the working directory is
    the one before it, and no path has gone. *)
Definition keeps_cwd {A} (m : M A) : Prop :=
  ∀ w, cwd (m w).2 = cwd w ∧ fs w ⊆ fs (m w).2.

(** [same_fs m]: [m] neither creates nor removes a path, however it
    ends. *)
Definition same_fs {A} (m : M A) : Prop := ∀ w, fs (m w).2 = fs w.

(** [children P m]: [m] keeps the list of the child processes run before
    it and every child process it runs itself satisfies [P d], where [d] is
    the working directory in which [m] starts. *)
Definition children (P : string → Call → Prop) {A} (m : M A) : Prop :=
  ∀ w, ∃ new, calls (m w).2 = calls w ++ new ∧ Forall (P (cwd w)) new.


(** What Mercurial does with a name that is taken.  [hg branch], which
    the script runs without [--force], aborts on the name of a branch that
    exists, unless it is the branch of the head it is on; and then
    [hg commit --amend] finds nothing to change and ends with status 1.
    Either way the block under [with] raises.  So, in a run of
    [fix_branches] on [all_heads] from the world [w1] that [get_heads]
    left: when the amendment of a head of the plan returns, the new name
    is not the branch of a head and was not given earlier in the run. *)
Definition hg_refuses_taken_names `{Platform} (hg_repo : string)
    (all_heads : list Head) (w1 : World) : Prop :=
  ∀ done head name todo w2 w3,
    rename_plan all_heads = done ++ (head, name) :: todo →
    for_each done (λ r, amend_head hg_repo r.1 r.2) w1 = (Ok tt, w2) →
    amend_head hg_repo head name w2 = (Ok tt, w3) →
    (name ∉ branch <$> all_heads) ∧ (name ∉ done.*2).

(** An [hg] command started in [d] with the environment of the script. *)
Definition hg_call_in (d : string) (c : Call) : Prop :=
  call_cwd c = d ∧ head (call_argv c) = Some "hg" ∧ call_env c = None.

(** The string of [k] newline characters. *)
Fixpoint newlines (k : nat) : string :=
  match k with
  | O => EmptyString
  | S k' => String newline (newlines k')
  end.

(** An argument that the loop of [main] passes over. *)
Definition no_bash_flag (arg : string) : Prop :=
  String.prefix "--bash" arg = false.

(** A string without the character [sep]. *)
Fixpoint lacks (sep : ascii) (s : string) : Prop :=
  match s with
  | EmptyString => True
  | String c rest => c ≠ sep ∧ lacks sep rest
  end.

(** The text before and the text after the last [sep] of a string. *)
Fixpoint split_last (sep : ascii) (s : string) : option (string * string) :=
  match s with
  | EmptyString => None
  | String c rest =>
      match split_last sep rest with
      | Some (before, after) => Some (String c before, after)
      | None => if decide (c = sep) then Some (EmptyString, rest) else None
      end
  end.

(** [newest_first x y]: [x] may stand before [y] in a sorted group. *)
Definition newest_first : relation Head := λ x y, timestamp y ≤ timestamp x.

(** ** Concrete inputs *)

Definition mk_head (h b : string) (t : Z) (bm : option string) : Head :=
  {| hash := h; branch := b; timestamp := t; bookmark := bm |}.

Definition mk_raw (h b : string) (t : Z) (bms : list string) : RawHead :=
  {| node := h; raw_branch := b; date := (t, 0); bookmarks := bms |}.

(** A branch with a bookmarked and then an unnamed secondary head. *)
Definition bookmarked_then_unnamed : list Head :=
  [mk_head "h1" "default" 30 None; mk_head "h2" "default" 20 (Some "foo");
   mk_head "h3" "default" 10 None].

(** Two unnamed secondary heads on [default], not in the order of their
    timestamps. *)
Definition two_unnamed : list Head :=
  [mk_head "h2" "default" 20 None; mk_head "h1" "default" 30 None;
   mk_head "h3" "default" 10 None].

(** A branch whose name is the one synthesized for another branch. *)
Definition colliding_heads : list Head :=
  [mk_head "h1" "default" 30 None; mk_head "h2" "default" 20 None;
   mk_head "h3" "default-anonymous-1" 10 None].

(** The same heads as [hg heads] prints them. *)
Definition colliding_raw : list RawHead :=
  [mk_raw "h1" "default" 30 []; mk_raw "h2" "default" 20 [];
   mk_raw "h3" "default-anonymous-1" 10 []].

(** A secondary head whose bookmark is the name of its branch. *)
Definition own_bookmark_heads : list Head :=
  [mk_head "h1" "default" 30 None;
   mk_head "h2" "default" 20 (Some "default")].

Definition own_bookmark_raw : list RawHead :=
  [mk_raw "h1" "default" 30 []; mk_raw "h2" "default" 20 ["default"]].

(** Two heads of one timestamp around a newer one. *)
Definition tied_heads : list Head :=
  [mk_head "h1" "default" 10 None; mk_head "h2" "default" 20 None;
   mk_head "h3" "default" 10 (Some "foo"); mk_head "h4" "stable" 10 None].

Definition posix_is_abs (path : string) : bool := String.prefix "/" path.

Definition posix_join (a b : string) : string :=
  if posix_is_abs b then b else a +:+ "/" +:+ b.

Definition posix_basename (path : string) : string :=
  match split_last "/" path with
  | Some (_, name) => name
  | None => path
  end.

Definition posix_dirname (path : string) : string :=
  match split_last "/" path with
  | Some (dir, _) => dir
  | None => EmptyString
  end.

(** The directories above [path], outermost first: what stands before
    each [/] of [path], the root apart. *)
Fixpoint posix_ancestors_from (before path : string) : list string :=
  match path with
  | EmptyString => []
  | String c rest =>
      (if decide (c = "/"%char ∧ before ≠ EmptyString) then [before] else [])
      ++ posix_ancestors_from (before +:+ String c EmptyString) rest
  end.

Definition posix_ancestors (path : string) : list string :=
  posix_ancestors_from EmptyString path.

(** A file stands where a directory above [path] should be. *)
Definition posix_under_file (F : gmap string Node) (path : string) : bool :=
  bool_decide (Exists (λ p, F !! p = Some File) (posix_ancestors path)).

(** [os.makedirs] in the examples: under a file nothing is made and the
    error is [ENOTDIR]; otherwise the missing directories above the path
    are made and there is no error. *)
Definition posix_makedirs_ancestors (F : gmap string Node) (path : string)
    : list string :=
  if posix_under_file F path then []
  else filter (λ p, F !! p = None) (posix_ancestors path).

Definition posix_makedirs_error (F : gmap string Node) (path : string)
    : option Errno :=
  if posix_under_file F path then Some ENOTDIR else None.

(** A platform for the examples: paths as on POSIX, [hg heads] prints
    [heads], the mapping file holds [mapping], and every child process
    succeeds except the commands that [failing] selects. *)
Definition example_platform (name : string) (heads : list RawHead)
    (mapping : list (string * string)) (failing : list string → bool)
    : Platform :=
  {| os_name := name;
     os_pathsep := ":";
     os_path_join := posix_join;
     os_path_basename := posix_basename;
     os_path_dirname := posix_dirname;
     os_path_abspath := posix_join;
     gettempdir := "/tmp";
     sys_executable := "/usr/bin/python";
     os_environ := {[ "PATH" := "/usr/bin" ]};
     here := "/opt/hg-export-tool";
     os_urandom := λ _ n, replicate n Byte.x2a;
     child := λ _ c, if failing (call_argv c) then (1, "") else (0, "msg");
     json_loads := λ _, Some heads;
     json_load_file := λ _, Some mapping;
     os_makedirs_ancestors := posix_makedirs_ancestors;
     os_makedirs_error := posix_makedirs_error;
     shutil_copy_errors := λ _ _ _, false |}.

(** The platform [P] under another [os.name]. *)
Definition with_os_name (name : string) (P : Platform) : Platform :=
  {| os_name := name;
     os_pathsep := @os_pathsep P;
     os_path_join := @os_path_join P;
     os_path_basename := @os_path_basename P;
     os_path_dirname := @os_path_dirname P;
     os_path_abspath := @os_path_abspath P;
     gettempdir := @gettempdir P;
     sys_executable := @sys_executable P;
     os_environ := @os_environ P;
     here := @here P;
     os_urandom := @os_urandom P;
     child := @child P;
     json_loads := @json_loads P;
     json_load_file := @json_load_file P;
     os_makedirs_ancestors := @os_makedirs_ancestors P;
     os_makedirs_error := @os_makedirs_error P;
     shutil_copy_errors := @shutil_copy_errors P |}.

(** The platform [P] when some entry of a tree cannot be copied. *)
Definition with_copy_errors (P : Platform) : Platform :=
  {| os_name := @os_name P;
     os_pathsep := @os_pathsep P;
     os_path_join := @os_path_join P;
     os_path_basename := @os_path_basename P;
     os_path_dirname := @os_path_dirname P;
     os_path_abspath := @os_path_abspath P;
     gettempdir := @gettempdir P;
     sys_executable := @sys_executable P;
     os_environ := @os_environ P;
     here := @here P;
     os_urandom := @os_urandom P;
     child := @child P;
     json_loads := @json_loads P;
     json_load_file := @json_load_file P;
     os_makedirs_ancestors := @os_makedirs_ancestors P;
     os_makedirs_error := @os_makedirs_error P;
     shutil_copy_errors := λ _ _ _, true |}.

(** A world in which the directories [paths] exist besides [/work], the
    working directory, and [/tmp]. *)
Definition example_world (argv : list string) (paths : list string) : World :=
  {| cwd := "/work";
     fs := list_to_map ((λ p, (p, Dir)) <$> ("/work" :: "/tmp" :: paths));
     sys_argv := argv; stdout := []; stderr := []; calls := [];
     urandom_reads := 0 |}.

Definition three_heads : list RawHead :=
  [mk_raw "a1" "default" 10 []; mk_raw "b2" "default" 30 [];
   mk_raw "c3" "default" 20 ["foo"; "bar"]].

Definition single_heads : list RawHead :=
  [mk_raw "a1" "default" 10 []; mk_raw "b2" "stable" 30 ["foo"]].

(** Two heads share the newest timestamp of [default]. *)
Definition tied_newest : list Head :=
  [mk_head "h1" "default" 20 None; mk_head "h2" "default" 30 (Some "foo");
   mk_head "h3" "default" 30 None; mk_head "h4" "stable" 40 None].


Definition never_fails (argv : list string) : bool := false.

(** An [hg] that refuses the branch name [name]. *)
Definition refuses_branch (name : string) (argv : list string) : bool :=
  bool_decide (argv = ["hg"; "branch"; name]).

(** The platform of the examples in which nothing fails. *)
Definition posix_example : Platform :=
  example_platform "posix" three_heads [("src/repo", "out/repo")] never_fails.

(** A command line with an option before the argument for the shell. *)
Definition argv_bash_path : list string :=
  ["exporter.py"; "-x"; "--bash-path=/usr/local/bin/bash"; "repos.json"].

(** A command line that passes the shell with [--bash=]. *)
Definition argv_with_bash : list string :=
  ["exporter.py"; "--bash=C:/Git/bin/bash.exe"; "repos.json"].

(** * Properties of the grouping and of the sort *)

Section grouping.
Implicit Types (h head : Head) (l heads group : list Head) (b : string).

Lemma append_head_lookup (m : gmap string (list Head)) h b :
  append_head m h !! b =
    if decide (branch h = b) then Some (default [] (m !! b) ++ [h])
    else m !! b.
Proof.
  unfold append_head. destruct (decide (branch h = b)) as [<-|Hne].
  - by rewrite lookup_partial_alter_eq.
  - by rewrite lookup_partial_alter_ne.
Qed.

Lemma foldl_append_head_lookup l (m : gmap string (list Head)) b :
  foldl append_head m l !! b =
    match m !! b, filter (on_branch b) l with
    | None, [] => None
    | o, g => Some (default [] o ++ g)
    end.
Proof.
  revert m. induction l as [|h l IH]; intros m; simpl.
  - destruct (m !! b); simpl; by rewrite ?app_nil_r.
  - rewrite IH, append_head_lookup, filter_cons.
    destruct (decide (branch h = b)) as [Hb|Hb].
    + rewrite decide_True by done.
      destruct (m !! b); simpl; by rewrite <- ?app_assoc.
    + by rewrite decide_False by done.
Qed.

Lemma group_by_branch_lookup l b :
  group_by_branch l !! b =
    match filter (on_branch b) l with
    | [] => None
    | g => Some g
    end.
Proof.
  unfold group_by_branch. rewrite foldl_append_head_lookup, lookup_empty.
  by destruct (filter _ l).
Qed.

End grouping.

Section sorting.
Implicit Types (h head x : Head) (l heads group : list Head).

Lemma insert_newest_first_perm h l : insert_newest_first h l ≡ₚ h :: l.
Proof.
  induction l as [|x l IH]; simpl; [done|].
  case_decide; [|done]. by rewrite IH, Permutation_swap.
Qed.

Lemma sort_newest_first_perm l : sort_newest_first l ≡ₚ l.
Proof.
  induction l as [|h l IH]; simpl; [done|].
  by rewrite insert_newest_first_perm, IH.
Qed.

Lemma insert_newest_first_sorted h l :
  Sorted newest_first l → Sorted newest_first (insert_newest_first h l).
Proof.
  induction 1 as [|x l Hl IH Hx]; simpl.
  - by repeat constructor.
  - case_decide as Hlt.
    + constructor; [done|].
      destruct Hx as [|y l' Hy]; simpl.
      * constructor. unfold newest_first. lia.
      * case_decide; constructor; first [done|unfold newest_first; lia].
    + constructor; [by constructor|]. constructor. unfold newest_first. lia.
Qed.

Lemma sort_newest_first_sorted l : Sorted newest_first (sort_newest_first l).
Proof.
  induction l; simpl; [constructor|]. by apply insert_newest_first_sorted.
Qed.

(** Heads of one timestamp are never moved past each other. *)
Lemma insert_newest_first_at_time t h l :
  filter (at_time t) (insert_newest_first h l) = filter (at_time t) (h :: l).
Proof.
  induction l as [|x l IH]; simpl; [done|].
  case_decide as Hlt; [|done].
  rewrite filter_cons, IH, !filter_cons.
  unfold at_time at 1 3 4 5.
  repeat case_decide; try done; lia.
Qed.

Lemma sort_newest_first_at_time t l :
  filter (at_time t) (sort_newest_first l) = filter (at_time t) l.
Proof.
  induction l as [|h l IH]; simpl; [done|].
  by rewrite insert_newest_first_at_time, !filter_cons, IH.
Qed.

Lemma newest_first_transitive : Transitive newest_first.
Proof. unfold newest_first. intros x y z ??. lia. Qed.

Lemma heads_by_branch_lookup l b :
  heads_by_branch l !! b =
    match filter (on_branch b) l with
    | [] => None
    | g => Some (sort_newest_first g)
    end.
Proof.
  unfold heads_by_branch. rewrite lookup_fmap, group_by_branch_lookup.
  by destruct (filter _ l).
Qed.

Lemma heads_by_branch_Some l b group :
  heads_by_branch l !! b = Some group →
  group = sort_newest_first (filter (on_branch b) l) ∧
  filter (on_branch b) l ≠ [].
Proof.
  rewrite heads_by_branch_lookup.
  destruct (filter _ l) as [|x g] eqn:E; [done|]. by intros [= <-].
Qed.

Lemma heads_by_branch_elem l b group h :
  heads_by_branch l !! b = Some group → h ∈ group → h ∈ l ∧ branch h = b.
Proof.
  intros [-> _]%heads_by_branch_Some.
  rewrite sort_newest_first_perm. by intros [??]%list_elem_of_filter.
Qed.

End sorting.

(** C5.  A group of [heads_by_branch] is sorted newest first, and the heads
    of the group that have the same timestamp stand in the order in which
    [get_heads] returned them. *)
Theorem sort_keeps_inspector_order (all_heads : list Head) (b : string)
    (group : list Head) (t : Z) :
  heads_by_branch all_heads !! b = Some group →
  Sorted newest_first group ∧
  group ≡ₚ filter (on_branch b) all_heads ∧
  filter (at_time t) group =
    filter (at_time t) (filter (on_branch b) all_heads).
Proof.
  intros [-> _]%heads_by_branch_Some. split_and!.
  - apply sort_newest_first_sorted.
  - apply sort_newest_first_perm.
  - apply sort_newest_first_at_time.
Qed.

(** * Properties of the new names *)

Section naming.
Implicit Types (h head : Head) (l heads group : list Head) (b name : string).

Lemma renames_fst b c l : (renames b c l).*1 = l.
Proof.
  revert c. induction l as [|h l IH]; intros c; simpl; [done|].
  destruct (new_branch_name b c h) as [name c']. simpl. by rewrite IH.
Qed.



Lemma renames_elem_bookmark b c l h name bm :
  (h, name) ∈ renames b c l → bookmark h = Some bm → name = bm.
Proof.
  revert c. induction l as [|x l IH]; intros c; simpl.
  - by intros ?%elem_of_nil.
  - unfold new_branch_name. destruct (bookmark x) as [bx|] eqn:Ex.
    + intros [[= -> ->]|Hin]%elem_of_cons Hbm; [congruence|by eapply IH].
    + intros [[= -> ->]|Hin]%elem_of_cons Hbm; [congruence|by eapply IH].
Qed.

Lemma renames_lookup_bookmark b c l i h bm :
  l !! i = Some h → bookmark h = Some bm →
  renames b c l !! i = Some (h, bm).
Proof.
  revert c i. induction l as [|x l IH]; intros c [|i]; simpl; try done.
  - intros [= ->] Hbm. unfold new_branch_name. by rewrite Hbm.
  - intros Hi Hbm. destruct (new_branch_name b c x). simpl. by apply IH.
Qed.

Lemma renames_lookup_unnamed b c l i h :
  l !! i = Some h → bookmark h = None →
  renames b c l !! i =
    Some (h, anonymous_name b
               (c + N.of_nat (length (filter unnamed (take i l))))).
Proof.
  revert c i. induction l as [|x l IH]; intros c [|i]; simpl; try done.
  - intros [= ->] Hbm. unfold new_branch_name. rewrite Hbm. simpl.
    by rewrite N.add_0_r.
  - intros Hi Hbm. unfold new_branch_name. rewrite filter_cons.
    destruct (bookmark x) as [bx|] eqn:Ex; simpl.
    + rewrite decide_False by (unfold unnamed; congruence). by apply IH.
    + rewrite decide_True by done. rewrite (IH _ _ Hi Hbm). simpl.
      do 3 f_equal. lia.
Qed.

Lemma elem_of_rename_plan all_heads (r : Head * string) :
  r ∈ rename_plan all_heads ↔
  ∃ b group, heads_by_branch all_heads !! b = Some group ∧
             r ∈ renames b 1 (tail group).
Proof.
  unfold rename_plan. rewrite list_elem_of_bind. split.
  - intros ([b group] & Hr & Hg%elem_of_map_to_list). by exists b, group.
  - intros (b & group & Hg & Hr). exists (b, group).
    by rewrite elem_of_map_to_list.
Qed.


Lemma filter_Forall_id {A} (P : A → Prop) `{∀ x, Decision (P x)}
    (l : list A) :
  Forall P l → filter P l = l.
Proof.
  induction 1 as [|x l Hx Hl IH]; [done|].
  by rewrite filter_cons_True, IH.
Qed.


End naming.

(** C3.  A secondary head that carries a bookmark is renamed to that
    bookmark: it is the name at its place in the renames of its group, and
    the only name the plan has for it. *)
Theorem bookmark_is_new_name (all_heads : list Head) (b : string)
    (group : list Head) (i : nat) (h : Head) (bm : string) :
  heads_by_branch all_heads !! b = Some group →
  group !! S i = Some h →
  bookmark h = Some bm →
  renames_of_group (b, group) !! i = Some (h, bm) ∧
  (h, bm) ∈ rename_plan all_heads ∧
  ∀ name, (h, name) ∈ rename_plan all_heads → name = bm.
Proof.
  intros Hg Hi Hbm.
  assert (renames_of_group (b, group) !! i = Some (h, bm)) as Hr.
  { unfold renames_of_group. simpl. apply renames_lookup_bookmark; [|done].
    by rewrite lookup_tail. }
  split_and!; [done| |].
  - apply elem_of_rename_plan. exists b, group. split; [done|].
    by eapply list_elem_of_lookup_2.
  - intros name (b' & group' & _ & Hin)%elem_of_rename_plan.
    by eapply renames_elem_bookmark.
Qed.

(** C4, as the code has it.  A secondary head without a bookmark is named
    [<branch>-anonymous-<n>], where [n] is one more than the number of
    heads without a bookmark among the secondary heads before it in the
    group: the counter is not advanced by a head that has a bookmark.  When
    none of the earlier secondary heads has a bookmark, [n] is the place
    of the head among the secondary heads, counted from 1. *)
Theorem anonymous_name_counts_unnamed (all_heads : list Head) (b : string)
    (group : list Head) (i : nat) (h : Head) :
  heads_by_branch all_heads !! b = Some group →
  group !! S i = Some h →
  bookmark h = None →
  let n := N.of_nat (S (length (filter unnamed (take i (tail group))))) in
  renames_of_group (b, group) !! i = Some (h, anonymous_name b n) ∧
  (h, anonymous_name b n) ∈ rename_plan all_heads ∧
  (Forall unnamed (take i (tail group)) → n = N.of_nat (S i)).
Proof.
  intros Hg Hi Hbm n.
  assert (renames_of_group (b, group) !! i = Some (h, anonymous_name b n)) as Hr.
  { unfold renames_of_group. simpl.
    rewrite (renames_lookup_unnamed b 1 (tail group) i h); [|by rewrite lookup_tail|done].
    do 3 f_equal. unfold n. lia. }
  split_and!; [done| |].
  - apply elem_of_rename_plan. exists b, group. split; [done|].
    by eapply list_elem_of_lookup_2.
  - intros Hall. unfold n. do 2 f_equal.
    rewrite filter_Forall_id by done.
    rewrite length_take. apply Nat.min_l.
    apply lookup_lt_Some in Hi. destruct group; simpl in *; lia.
Qed.

(** C4, as the claim words it: the counter would advance once for every
    secondary head, so the head at place [i] of the secondary heads would
    get the number [i + 1].  It does not when a head with a bookmark stands
    before it. *)
Lemma anonymous_counter_skips_bookmarks :
  ¬ (∀ (all_heads : list Head) (b : string) (group : list Head) (i : nat)
       (h : Head),
       heads_by_branch all_heads !! b = Some group →
       group !! S i = Some h →
       bookmark h = None →
       renames_of_group (b, group) !! i =
         Some (h, anonymous_name b (N.of_nat (S i)))).
Proof.
  intros Hclaim.
  specialize (Hclaim bookmarked_then_unnamed "default"
                bookmarked_then_unnamed 1%nat
                (mk_head "h3" "default" 10 None)).
  assert (renames_of_group ("default", bookmarked_then_unnamed) !! 1%nat
          = Some (mk_head "h3" "default" 10 None, "default-anonymous-1"))
    as Hcode by (vm_compute; reflexivity).
  rewrite Hclaim in Hcode; [|vm_compute; reflexivity..].
  vm_compute in Hcode. discriminate Hcode.
Qed.

(** The example of the spec: two secondary heads without a bookmark on
    [default] get the numbers 1 and 2, the newer one first. *)
Example default_anonymous_1_2 :
  rename_plan two_unnamed =
    [(mk_head "h2" "default" 20 None, "default-anonymous-1");
     (mk_head "h3" "default" 10 None, "default-anonymous-2")].
Proof. vm_compute. reflexivity. Qed.

(** The example of the spec for timestamps T1 < T2 < T3. *)
Example newest_of_three_keeps_default :
  final_names two_unnamed =
    [(mk_head "h1" "default" 30 None, "default");
     (mk_head "h2" "default" 20 None, "default-anonymous-1");
     (mk_head "h3" "default" 10 None, "default-anonymous-2")].
Proof. vm_compute. reflexivity. Qed.

(** The plan itself does not look at the names that are taken: the name
    synthesized for a secondary head can be the name of another branch.
    Whether the run gets to the end with such a plan is up to [hg]. *)
Remark plan_names_can_collide :
  ¬ NoDup (final_names colliding_heads).*2.
Proof.
  apply (bool_decide_eq_false_1 (NoDup (final_names colliding_heads).*2)).
  vm_compute. reflexivity.
Qed.

(** * The final names *)

Section anonymous_names.
Implicit Types (s p x : string) (n : N).

Lemma split_last_lacks sep p : lacks sep p → split_last sep p = None.
Proof.
  induction p as [|c p IH]; simpl; [done|]. intros [Hc Hp].
  rewrite IH by done. by rewrite decide_False.
Qed.

Lemma string_app_nil_l s : EmptyString +:+ s = s.
Proof. reflexivity. Qed.

Lemma string_app_cons c s1 s2 : String c s1 +:+ s2 = String c (s1 +:+ s2).
Proof. reflexivity. Qed.

Lemma split_last_app sep x p :
  lacks sep p → split_last sep (x +:+ String sep p) = Some (x, p).
Proof.
  intros Hp. induction x as [|c x IH].
  - rewrite string_app_nil_l. simpl.
    rewrite split_last_lacks by done. by rewrite decide_True.
  - rewrite string_app_cons. simpl. by rewrite IH.
Qed.

Lemma pretty_N_char_no_dash n : pretty_N_char n ≠ "-"%char.
Proof. unfold pretty_N_char. by repeat case_match. Qed.

Lemma pretty_N_go_lacks_dash n s :
  lacks "-" s → lacks "-" (pretty_N_go n s).
Proof.
  revert s. induction (N.lt_wf_0 n) as [n _ IH]; intros s Hs.
  destruct (decide (n = 0)%N) as [->|Hn]; [by rewrite pretty_N_go_0|].
  rewrite pretty_N_go_step by lia. apply IH.
  - apply N.div_lt; lia.
  - split; [apply pretty_N_char_no_dash|done].
Qed.

Lemma pretty_N_lacks_dash n : lacks "-" (pretty n).
Proof.
  unfold pretty, pretty_N. case_decide; [by compute|].
  by apply pretty_N_go_lacks_dash.
Qed.

Lemma string_app_assoc s1 s2 s3 : (s1 +:+ s2) +:+ s3 = s1 +:+ s2 +:+ s3.
Proof.
  induction s1 as [|c s1 IH]; [done|]. by rewrite !string_app_cons, IH.
Qed.

(** A synthesized name tells its branch and its number. *)
Lemma anonymous_name_inj b b' n n' :
  anonymous_name b n = anonymous_name b' n' → b = b' ∧ n = n'.
Proof.
  unfold anonymous_name. intros Heq.
  assert (∀ b0 n0, b0 +:+ "-anonymous-" +:+ pretty n0
                   = (b0 +:+ "-anonymous") +:+ String "-" (pretty n0)) as Hsplit.
  { intros b0 n0. by rewrite string_app_assoc. }
  rewrite !Hsplit in Heq. apply (f_equal (split_last "-")) in Heq.
  rewrite !split_last_app in Heq by apply pretty_N_lacks_dash.
  injection Heq as Hb Hn. split; [|by apply (inj pretty)].
  apply (f_equal (split_last "-")) in Hb.
  change "-anonymous" with (String "-" "anonymous") in Hb.
  rewrite !split_last_app in Hb by (by compute). by injection Hb.
Qed.

Lemma string_length_app s1 s2 :
  String.length (s1 +:+ s2) = (String.length s1 + String.length s2)%nat.
Proof.
  induction s1 as [|c s1 IH]; [done|].
  rewrite string_app_cons. simpl. by rewrite IH.
Qed.

(** A synthesized name is longer than the name of its branch. *)
Lemma anonymous_name_not_branch b n : anonymous_name b n ≠ b.
Proof.
  unfold anonymous_name. intros Heq. apply (f_equal String.length) in Heq.
  rewrite !string_length_app in Heq. simpl in Heq. lia.
Qed.

End anonymous_names.

Section final_names.
Implicit Types (h head : Head) (l heads group : list Head) (b name : string).

(** A new name is the bookmark of its head or a synthesized name whose
    number the counter had not reached before. *)
Lemma renames_name_cases b c l h name :
  (h, name) ∈ renames b c l →
  h ∈ l ∧ (bookmark h = Some name ∨
           ∃ n, (c ≤ n)%N ∧ name = anonymous_name b n).
Proof.
  revert c. induction l as [|x l IH]; intros c; simpl.
  - by intros ?%elem_of_nil.
  - unfold new_branch_name. destruct (bookmark x) as [bx|] eqn:Ex.
    + intros [[= -> ->]|Hin]%elem_of_cons.
      * split; [left|by left].
      * destruct (IH _ Hin) as [? ?]. split; [by right|done].
    + intros [[= -> ->]|Hin]%elem_of_cons.
      * split; [left|]. right. exists c. split; [lia|done].
      * destruct (IH _ Hin) as [? [?|(n & ? & ?)]]; (split; [by right|]).
        -- by left.
        -- right. exists n. split; [lia|done].
Qed.


Lemma names_of_group_fst b group : (names_of_group (b, group)).*1 = group.
Proof.
  unfold names_of_group, renames_of_group. destruct group as [|x rest]; simpl;
    [done|]. by rewrite renames_fst.
Qed.

Lemma group_not_empty all_heads b group :
  heads_by_branch all_heads !! b = Some group → group ≠ [].
Proof.
  intros [-> Hne]%heads_by_branch_Some Hnil. apply Hne.
  apply Permutation_nil_r. rewrite <- Hnil.
  symmetry. apply sort_newest_first_perm.
Qed.


(** The groups hold the heads that [get_heads] returned, each one once. *)
Lemma append_head_to_list (m : gmap string (list Head)) h :
  map_to_list (append_head m h) ≫= snd ≡ₚ (map_to_list m ≫= snd) ++ [h].
Proof.
  unfold append_head.
  destruct (m !! branch h) as [g|] eqn:Eg.
  - assert (partial_alter (λ o, Some (default [] o ++ [h])) (branch h) m
            = <[branch h:=g ++ [h]]> (delete (branch h) m)) as ->.
    { apply map_eq. intros k. destruct (decide (branch h = k)) as [<-|?].
      - by rewrite lookup_partial_alter_eq, lookup_insert_eq, Eg.
      - by rewrite lookup_partial_alter_ne, lookup_insert_ne,
             lookup_delete_ne. }
    rewrite map_to_list_insert by apply lookup_delete_eq.
    rewrite <- (map_to_list_delete m (branch h) g) by done.
    rewrite !bind_cons. simpl. rewrite <- !app_assoc.
    f_equiv. apply Permutation_app_comm.
  - assert (partial_alter (λ o, Some (default [] o ++ [h])) (branch h) m
            = <[branch h:=[h]]> m) as ->.
    { apply map_eq. intros k. destruct (decide (branch h = k)) as [<-|?].
      - by rewrite lookup_partial_alter_eq, lookup_insert_eq, Eg.
      - by rewrite lookup_partial_alter_ne, lookup_insert_ne. }
    rewrite map_to_list_insert by done. rewrite bind_cons. simpl.
    apply Permutation_cons_append.
Qed.

Lemma foldl_append_head_to_list l (m : gmap string (list Head)) :
  map_to_list (foldl append_head m l) ≫= snd ≡ₚ (map_to_list m ≫= snd) ++ l.
Proof.
  revert m. induction l as [|h l IH]; intros m; simpl.
  - by rewrite app_nil_r.
  - rewrite IH, append_head_to_list. by rewrite <- app_assoc.
Qed.

Lemma list_bind_perm_ext {A B} (f g : A → list B) (l : list A) :
  (∀ x, f x ≡ₚ g x) → l ≫= f ≡ₚ l ≫= g.
Proof.
  intros Hfg. induction l as [|x l IH]; [done|].
  rewrite !bind_cons. by rewrite Hfg, IH.
Qed.

Lemma fmap_list_bind {A B C} (f : B → C) (g : A → list B) (l : list A) :
  f <$> (l ≫= g) = l ≫= (λ x, f <$> g x).
Proof.
  induction l as [|x l IH]; [done|]. by rewrite !bind_cons, fmap_app, IH.
Qed.

Lemma final_names_heads all_heads : (final_names all_heads).*1 ≡ₚ all_heads.
Proof.
  unfold final_names, heads_by_branch.
  rewrite fmap_list_bind.
  rewrite map_to_list_fmap, list_fmap_bind.
  trans (map_to_list (group_by_branch all_heads) ≫= snd).
  2:{ unfold group_by_branch. rewrite foldl_append_head_to_list.
      by rewrite map_to_list_empty. }
  apply list_bind_perm_ext. intros [b g]. simpl.
  rewrite names_of_group_fst. apply sort_newest_first_perm.
Qed.



End final_names.



(** * Making directories *)

Section making_directories.
Context `{Platform}.

Lemma dirs_lookup_elem paths p : p ∈ paths → dirs paths !! p = Some Dir.
Proof.
  unfold dirs. induction paths as [|q paths IH]; simpl.
  - by intros ?%elem_of_nil.
  - destruct (decide (q = p)) as [->|Hne]; [by rewrite lookup_insert_eq|].
    rewrite lookup_insert_ne by done.
    intros [?|?]%elem_of_cons; [congruence|by apply IH].
Qed.

(** What is made is a directory, and what existed is kept. *)
Lemma union_dirs_new (F : gmap string Node) paths p :
  F !! p = None → p ∈ paths → (F ∪ dirs paths) !! p = Some Dir.
Proof.
  intros Hfree Hin. rewrite lookup_union_r by done. by apply dirs_lookup_elem.
Qed.

(** The three cases of [mkdir_p].  On a free path it ends as
    [os.makedirs] does, but for [EEXIST] on what is a directory by then. *)
Lemma mkdir_p_outcome path w :
  match fs w !! path with
  | Some Dir => mkdir_p path w = (Ok tt, w)
  | Some File => mkdir_p path w = (Raise (OSError EEXIST), w)
  | None =>
      ∃ r F, mkdir_p path w = (r, set_fs F w) ∧ fs w ⊆ F ∧
             match r with
             | Ok _ => F !! path = Some Dir
             | Raise e => ∃ errno, e = OSError errno ∧
                                   os_makedirs_error (fs w) path = Some errno
             end
  end.
Proof.
  unfold mkdir_p, try_except, os_makedirs, mbind, M_bind, os_path_isdir.
  destruct (fs w !! path) as [[]|] eqn:E; simpl; rewrite ?E.
  - by rewrite bool_decide_eq_false_2.
  - by rewrite bool_decide_eq_true_2.
  - destruct (os_makedirs_error (fs w) path) as [errno|] eqn:Eerr; simpl.
    + destruct (bool_decide (errno = EEXIST) &&
                bool_decide ((fs w ∪ dirs (os_makedirs_ancestors (fs w) path))
                               !! path = Some Dir)) eqn:Ecase.
      * apply andb_true_iff in Ecase as [_ Hdir%bool_decide_eq_true].
        eexists (Ok tt), _. split; [done|].
        split; [apply map_union_subseteq_l|done].
      * eexists (Raise _), _. split; [done|].
        split; [apply map_union_subseteq_l|by eexists].
    + eexists (Ok tt), _. split; [done|].
      split; [apply map_union_subseteq_l|].
      apply union_dirs_new; [done|]. apply elem_of_app. right. left.
Qed.

(** [mkdir_p] changes the paths only, and takes none away. *)
Lemma mkdir_p_frame path w :
  ∃ F, (mkdir_p path w).2 = set_fs F w ∧ fs w ⊆ F.
Proof.
  pose proof (mkdir_p_outcome path w) as Hcases.
  destruct (fs w !! path) as [[]|].
  - rewrite Hcases. exists (fs w). split; [by destruct w|done].
  - rewrite Hcases. exists (fs w). split; [by destruct w|done].
  - destruct Hcases as (r & F & -> & Hfs & _). by exists F.
Qed.

(** The outcomes of [shutil.copytree]: it changes the paths only and
    takes none away; the destination is new, and it is there once
    [os.makedirs] has made it, also when an entry cannot be copied. *)
Lemma shutil_copytree_cases src dst w :
  ∃ r F, shutil_copytree src dst w = (r, set_fs F w) ∧ fs w ⊆ F ∧
         match r with
         | Ok _ => fs w !! src = Some Dir ∧ fs w !! dst = None ∧
                   F !! dst = Some Dir
         | Raise e => (∃ errno, e = OSError errno) ∨
                      (e = ShutilError ∧ fs w !! src = Some Dir ∧
                       fs w !! dst = None ∧ F !! dst = Some Dir)
         end.
Proof.
  unfold shutil_copytree, os_listdir, os_makedirs, copy_entries, mbind, M_bind.
  destruct (fs w !! src) as [[]|] eqn:Esrc.
  - exists (Raise (OSError ENOTDIR)), (fs w).
    split; [by destruct w|]. split; [done|by eauto].
  - destruct (fs w !! dst) as [n|] eqn:Efree.
    { exists (Raise (OSError EEXIST)), (fs w).
      split; [by destruct w|]. split; [done|by eauto]. }
    destruct (os_makedirs_error (fs w) dst) as [errno|].
    { eexists (Raise (OSError errno)), _. split; [done|].
      split; [apply map_union_subseteq_l|by eauto]. }
    assert ((fs w ∪ dirs (os_makedirs_ancestors (fs w) dst ++ [dst]))
              !! dst = Some Dir) as Hdir.
    { apply union_dirs_new; [done|]. apply elem_of_app. right. left. }
    simpl. destruct (shutil_copy_errors _ src dst).
    + eexists (Raise ShutilError), _. split; [done|].
      split; [apply map_union_subseteq_l|by right].
    + eexists (Ok tt), _. split; [done|].
      split; [apply map_union_subseteq_l|done].
  - exists (Raise (OSError ENOENT)), (fs w).
    split; [by destruct w|]. split; [done|by eauto].
Qed.

End making_directories.

(** * The working directory *)

Section working_directory.
Context `{Platform}.

Lemma keeps_cwd_ret {A} (a : A) : keeps_cwd (mret a).
Proof. by intros w. Qed.

Lemma keeps_cwd_raise {A} (e : Exn) : keeps_cwd (@raise A e).
Proof. by intros w. Qed.

Lemma keeps_cwd_bind {A B} (m : M A) (f : A → M B) :
  keeps_cwd m → (∀ a, keeps_cwd (f a)) → keeps_cwd (m ≫= f).
Proof.
  intros Hm Hf w. unfold mbind, M_bind. specialize (Hm w).
  destruct (m w) as [[a|e] w']; simpl in *; [|done].
  destruct Hm as [Hc0 Hfs0]. destruct (Hf a w') as [Hc Hfs].
  split; [congruence|by etrans].
Qed.

Lemma keeps_cwd_run_child argv env : keeps_cwd (run_child argv env).
Proof. by intros w. Qed.

Lemma keeps_cwd_check_call_env argv env : keeps_cwd (check_call_env argv env).
Proof.
  apply keeps_cwd_bind; [apply keeps_cwd_run_child|].
  intros r. case_decide; [apply keeps_cwd_ret|apply keeps_cwd_raise].
Qed.

Lemma keeps_cwd_check_call argv : keeps_cwd (subprocess_check_call argv).
Proof. apply keeps_cwd_check_call_env. Qed.

Lemma keeps_cwd_check_output argv : keeps_cwd (subprocess_check_output argv).
Proof.
  apply keeps_cwd_bind; [apply keeps_cwd_run_child|].
  intros r. case_decide; [apply keeps_cwd_ret|apply keeps_cwd_raise].
Qed.

Lemma keeps_cwd_for_each {A} (l : list A) (body : A → M unit) :
  (∀ x, keeps_cwd (body x)) → keeps_cwd (for_each l body).
Proof.
  intros Hbody. induction l as [|x l IH]; simpl; [apply keeps_cwd_ret|].
  apply keeps_cwd_bind; [done|]. by intros _.
Qed.

(** The context manager: the [finally] clause always finds the directory
    it saved. *)
Lemma keeps_cwd_switch_directory {A} (directory : string) (body : M A) :
  keeps_cwd body → keeps_cwd (switch_directory directory body).
Proof.
  intros Hbody w. unfold switch_directory, mbind, M_bind, os_getcwd.
  destruct (fs w !! cwd w) as [[]|] eqn:Ecwd; [done| |done].
  unfold try_finally, os_chdir.
  destruct (fs w !! directory) as [[]|] eqn:Edir; simpl.
  - by rewrite Ecwd.
  - destruct (Hbody (set_cwd directory w)) as [_ Hfs].
    destruct (body (set_cwd directory w)) as [r w1]. simpl in Hfs.
    rewrite (lookup_weaken _ _ _ _ Ecwd Hfs). by destruct r.
  - by rewrite Ecwd.
Qed.

Lemma keeps_cwd_mkdir_p path : keeps_cwd (mkdir_p path).
Proof.
  intros w. destruct (mkdir_p_frame path w) as (F & -> & Hfs). by split.
Qed.

Lemma keeps_cwd_init_git_repo git_repo : keeps_cwd (init_git_repo git_repo).
Proof.
  unfold init_git_repo.
  apply keeps_cwd_bind; [by intros w|]. intros exists_.
  apply keeps_cwd_bind.
  { destruct exists_; [|apply keeps_cwd_ret].
    apply keeps_cwd_bind; [by intros w|]. intros _. apply keeps_cwd_raise. }
  intros _. apply keeps_cwd_bind; [apply keeps_cwd_mkdir_p|].
  intros _. apply keeps_cwd_bind; [apply keeps_cwd_check_call|].
  intros _. apply keeps_cwd_switch_directory, keeps_cwd_check_call.
Qed.

Lemma keeps_cwd_get_heads hg_repo : keeps_cwd (get_heads hg_repo).
Proof.
  unfold get_heads.
  apply keeps_cwd_bind;
    [apply keeps_cwd_switch_directory, keeps_cwd_check_output|].
  intros output. apply keeps_cwd_bind; [|intros heads; apply keeps_cwd_ret].
  destruct (json_loads output); [apply keeps_cwd_ret|apply keeps_cwd_raise].
Qed.

Lemma keeps_cwd_amend_head hg_repo head new_name :
  keeps_cwd (amend_head hg_repo head new_name).
Proof.
  apply keeps_cwd_switch_directory.
  repeat (apply keeps_cwd_bind; [apply keeps_cwd_check_call|]; intros _).
  apply keeps_cwd_bind; [apply keeps_cwd_check_output|].
  intros out. apply keeps_cwd_check_call.
Qed.

Lemma keeps_cwd_rename_heads hg_repo b c heads :
  keeps_cwd (rename_heads hg_repo b c heads).
Proof.
  revert c. induction heads as [|head rest IH]; intros c; simpl;
    [apply keeps_cwd_ret|].
  destruct (new_branch_name b c head) as [name c'].
  apply keeps_cwd_bind; [apply keeps_cwd_amend_head|]. by intros _.
Qed.

Lemma keeps_cwd_fix_branches hg_repo : keeps_cwd (fix_branches hg_repo).
Proof.
  unfold fix_branches. apply keeps_cwd_bind; [apply keeps_cwd_get_heads|].
  intros all_heads. apply keeps_cwd_for_each.
  intros group. apply keeps_cwd_rename_heads.
Qed.

Lemma keeps_cwd_convert hg_repo_copy git_repo fast_export_args bash :
  keeps_cwd (convert hg_repo_copy git_repo fast_export_args bash).
Proof.
  apply keeps_cwd_switch_directory.
  apply keeps_cwd_bind; [apply keeps_cwd_check_call_env|].
  intros _. apply keeps_cwd_check_call.
Qed.

End working_directory.

(** C9.  [get_heads], [fix_branches], [convert] and [init_git_repo] leave
    the working directory of the process as they found it, whether they
    return or raise. *)
Theorem working_directory_restored `{Platform} (hg_repo git_repo : string)
    (fast_export_args : list string) (bash : string) (w : World) :
  cwd (get_heads hg_repo w).2 = cwd w ∧
  cwd (fix_branches hg_repo w).2 = cwd w ∧
  cwd (convert hg_repo git_repo fast_export_args bash w).2 = cwd w ∧
  cwd (init_git_repo git_repo w).2 = cwd w.
Proof.
  split_and!.
  - apply keeps_cwd_get_heads.
  - apply keeps_cwd_fix_branches.
  - apply keeps_cwd_convert.
  - apply keeps_cwd_init_git_repo.
Qed.

(** * One repository: [process_repo] *)

Section lifecycle.
Context `{Platform}.

(** The outcomes of [copy_hg_repo].  It reads the random bytes and changes
    the paths, and nothing else; no path is taken away or replaced.  When
    it returns, the copy is a new directory; when [shutil.copytree] raises
    for the entries it could not copy, the copy is there as well. *)
Lemma copy_hg_repo_cases hg_repo w :
  let copy := os_path_join gettempdir
                (os_path_basename hg_repo +:+ "-" +:+
                 hexlify (os_urandom (urandom_reads w) 16)) in
  ∃ r F, copy_hg_repo hg_repo w = (r, set_fs F (add_urandom_read w)) ∧
         fs w ⊆ F ∧
         match r with
         | Ok c => c = copy ∧ fs w !! hg_repo = Some Dir ∧
                   fs w !! copy = None ∧ F !! copy = Some Dir
         | Raise e => (∃ errno, e = OSError errno) ∨
                      (e = ShutilError ∧ fs w !! hg_repo = Some Dir ∧
                       fs w !! copy = None ∧ F !! copy = Some Dir)
         end.
Proof.
  intros copy. unfold copy_hg_repo, urandom, mbind, M_bind. simpl. fold copy.
  destruct (shutil_copytree_cases hg_repo copy (add_urandom_read w))
    as (r & F & -> & Hfs & Hr).
  destruct r as [[]|e]; [by exists (Ok copy), F|by exists (Raise e), F].
Qed.




Lemma for_each_skip {A} (l : list A) (body : A → M unit) w :
  (∀ x, x ∈ l → body x w = (Ok tt, w)) → for_each l body w = (Ok tt, w).
Proof.
  induction l as [|x l IH]; intros Hbody; simpl; [done|].
  unfold mbind, M_bind. rewrite Hbody by left.
  apply IH. intros y Hy. apply Hbody. by right.
Qed.

Lemma for_each_app {A} (l1 l2 : list A) (body : A → M unit) w :
  for_each (l1 ++ l2) body w = (for_each l1 body ;; for_each l2 body) w.
Proof.
  revert w. induction l1 as [|x l1 IH]; intros w; simpl; [done|].
  unfold mbind, M_bind. destruct (body x w) as [[[]|e] w']; [|done].
  apply IH.
Qed.

Lemma for_each_bind {A B} (l : list A) (f : A → list B) (body : B → M unit) w :
  for_each (l ≫= f) body w = for_each l (λ x, for_each (f x) body) w.
Proof.
  revert w. induction l as [|x l IH]; intros w; [done|].
  rewrite bind_cons, for_each_app. simpl. unfold mbind, M_bind.
  destruct (for_each (f x) body w) as [[[]|e] w']; [apply IH|done].
Qed.

Lemma rename_heads_renames hg_repo b c heads w :
  rename_heads hg_repo b c heads w =
    for_each (renames b c heads) (λ r, amend_head hg_repo r.1 r.2) w.
Proof.
  revert c w. induction heads as [|head rest IH]; intros c w; simpl; [done|].
  destruct (new_branch_name b c head) as [name c']. simpl.
  unfold mbind, M_bind.
  destruct (amend_head hg_repo head name w) as [[[]|e] w']; [apply IH|done].
Qed.

(** The loops of [fix_branches] over the groups and over the secondary
    heads of each are one loop over the rename plan. *)
Lemma rename_groups_plan hg_repo all_heads w :
  for_each (map_to_list (heads_by_branch all_heads))
    (λ group, rename_heads hg_repo group.1 1%N (tail group.2)) w =
  for_each (rename_plan all_heads) (λ r, amend_head hg_repo r.1 r.2) w.
Proof.
  unfold rename_plan. rewrite for_each_bind.
  generalize (map_to_list (heads_by_branch all_heads)). intros groups.
  revert w. induction groups as [|g groups IH]; intros w; simpl; [done|].
  unfold mbind, M_bind. rewrite rename_heads_renames.
  unfold renames_of_group.
  destruct (for_each (renames g.1 1 (tail g.2)) _ w) as [[[]|e] w2];
    [apply IH|done].
Qed.

(** X21.  [fix_branches] is [get_heads] followed by the amendment of the
    heads of the rename plan, with the names of the plan and in the order
    of the plan; it stops at the first step that raises. *)
Lemma fix_branches_follows_plan hg_repo w :
  fix_branches hg_repo w =
    (all_heads ← get_heads hg_repo;
     for_each (rename_plan all_heads) (λ r, amend_head hg_repo r.1 r.2)) w.
Proof.
  unfold fix_branches, mbind, M_bind.
  destruct (get_heads hg_repo w) as [[all_heads|e] w1]; [|done].
  apply rename_groups_plan.
Qed.


Lemma single_head_groups all_heads b group :
  NoDup (branch <$> all_heads) →
  heads_by_branch all_heads !! b = Some group → tail group = [].
Proof.
  intros Hnd [-> _]%heads_by_branch_Some.
  assert (length (filter (on_branch b) all_heads) ≤ 1)%nat as Hlen.
  { clear -Hnd. induction all_heads as [|x l IH]; simpl; [lia|].
    apply NoDup_cons in Hnd as [Hx Hl]. rewrite filter_cons.
    case_decide as Hb; [|by apply IH]. simpl.
    destruct (filter (on_branch b) l) as [|y g] eqn:Ef; [simpl; lia|].
    destruct Hx. assert (y ∈ filter (on_branch b) l) as
      [Hy Hin]%list_elem_of_filter by (rewrite Ef; left).
    unfold on_branch in Hb, Hy. rewrite Hb, <- Hy.
    by apply list_elem_of_fmap_2. }
  pose proof (Permutation_length
                (sort_newest_first_perm (filter (on_branch b) all_heads))) as Hp.
  destruct (sort_newest_first _) as [|x [|y rest]]; simpl in *; [done..|lia].
Qed.

End lifecycle.



(** C7.  When the destination exists, [process_repo] prints its message
    and raises [SystemExit 1]; nothing else of the world has changed: no
    path, no child process, no copy of the source. *)
Theorem existing_destination_untouched `{Platform} (hg_repo git_repo : string)
    (fast_export_args : list string) (bash : string) (w : World) :
  is_Some (fs w !! git_repo) →
  process_repo hg_repo git_repo fast_export_args bash w =
    (Raise (SystemExit 1), add_stdout (already_exists_msg git_repo) w).
Proof.
  intros Hex. unfold process_repo, init_git_repo, mbind, M_bind, os_path_exists.
  by rewrite bool_decide_eq_true_2.
Qed.

(** C10.  When no two heads that [get_heads] returns are on the same
    branch, [fix_branches] plans no rename and runs no child process after
    the query of [get_heads]. *)
Theorem single_heads_no_renames `{Platform} (hg_repo : string) (w w1 : World)
    (all_heads : list Head) :
  get_heads hg_repo w = (Ok all_heads, w1) →
  NoDup (branch <$> all_heads) →
  rename_plan all_heads = [] ∧
  fix_branches hg_repo w = (Ok tt, w1) ∧
  w1 = add_call {| call_cwd := hg_repo; call_argv := hg_heads_cmd;
                   call_env := None |} w.
Proof.
  intros Hget Hnd.
  assert (∀ g, g ∈ map_to_list (heads_by_branch all_heads) → tail g.2 = [])
    as Hsingle.
  { intros [b g] Hg%elem_of_map_to_list. by eapply single_head_groups. }
  split_and!.
  - unfold rename_plan.
    induction (map_to_list (heads_by_branch all_heads)) as [|g gs IH]; [done|].
    rewrite bind_cons. unfold renames_of_group at 1.
    rewrite (Hsingle g) by left. simpl. apply IH.
    intros g' Hg'. apply Hsingle. by right.
  - unfold fix_branches, mbind, M_bind. rewrite Hget.
    apply for_each_skip. intros g Hg. by rewrite (Hsingle g Hg).
  - revert Hget. unfold get_heads, switch_directory, mbind, M_bind, os_getcwd.
    destruct (fs w !! cwd w) as [[]|] eqn:Ecwd; [done| |done].
    unfold try_finally, os_chdir.
    destruct (fs w !! hg_repo) as [[]|] eqn:Erepo; simpl;
      rewrite ?Ecwd; [done| |done].
    unfold subprocess_check_output, mbind, M_bind, run_child. simpl.
    case_decide; unfold mret, M_ret, raise; simpl; rewrite Ecwd; [|done].
    destruct (json_loads _); simpl; [|done]. intros [= _ <-].
    by destruct w.
Qed.

(** * The command line: [main] *)

Section command_line.
Context `{Platform}.

(** On [nt] the first pass of the loop of [main], on the name of the
    script, already reports a missing [--bash] and leaves: the rest of the
    command line is never looked at. *)
Lemma main_nt_first_argument (w : World) (script : string)
    (args : list string) :
  os_name = "nt" →
  sys_argv w = script :: args →
  String.prefix "--bash" script = false →
  main w = (Raise (SystemExit 1), add_stderr missing_bash_msg w).
Proof.
  intros Hnt Hargv Hscript. unfold main, mbind, M_bind. rewrite Hargv. simpl.
  rewrite Hscript. unfold mbind, M_bind. by rewrite decide_True.
Qed.

(** On another platform the loop goes on and takes the shell from the
    argument, which it removes from [sys.argv]. *)
Lemma scan_bash_finds_flag (w : World) (script value : string)
    (args : list string) :
  os_name ≠ "nt" →
  sys_argv w = script :: ("--bash=" +:+ value) :: args →
  String.prefix "--bash" script = false →
  scan_bash 0 (sys_argv w) None w =
    (Ok (Some value), set_sys_argv (script :: args) w).
Proof.
  intros Hnt Hargv Hscript. rewrite Hargv. simpl. rewrite Hscript.
  unfold mbind, M_bind. rewrite decide_False by done. simpl.
  by rewrite Hargv.
Qed.

End command_line.

(** C8, what the code does.  On [nt], with the command line
    [exporter.py --bash=C:/Git/bin/bash.exe repos.json], [main] writes the
    message about the missing [--bash] argument and exits with status 1,
    whatever the rest of the platform and of the world. *)
Theorem main_nt_rejects_supplied_flag (P : Platform) (w : World) :
  @main (with_os_name "nt" P) (set_sys_argv argv_with_bash w) =
    (Raise (SystemExit 1),
     add_stderr missing_bash_msg (set_sys_argv argv_with_bash w)).
Proof.
  by apply (@main_nt_first_argument (with_os_name "nt" P) _ "exporter.py"
              (tail argv_with_bash)).
Qed.

(** The same command line on a platform that is not [nt]: the shell is
    the one of the argument. *)
Example main_posix_takes_supplied_flag (P : Platform) (w : World) :
  @scan_bash (with_os_name "posix" P) 0 argv_with_bash None
     (set_sys_argv argv_with_bash w) =
    (Ok (Some "C:/Git/bin/bash.exe"),
     set_sys_argv ["exporter.py"; "repos.json"] w).
Proof.
  by apply (@scan_bash_finds_flag (with_os_name "posix" P)
              (set_sys_argv argv_with_bash w) "exporter.py"
              "C:/Git/bin/bash.exe" ["repos.json"]).
Qed.

(** * Instances of the theorems *)

Ltac by_decide := apply (bool_decide_unpack _); vm_compute; exact I.


(** An [hg] that refuses the name of the branch of [h3]: the run on
    [colliding_raw] stops at [hg branch], with the hypothesis of the
    theorem on Mercurial met. *)
Example taken_name_stops_fix_branches :
  let P := example_platform "posix" colliding_raw []
             (refuses_branch "default-anonymous-1") in
  let w := example_world [] ["/src/repo"] in
  (@fix_branches P "/src/repo" w).1 =
    Raise (CalledProcessError 1 ["hg"; "branch"; "default-anonymous-1"]) ∧
  @hg_refuses_taken_names P "/src/repo" (head_records colliding_raw)
    (@get_heads P "/src/repo" w).2.
Proof.
  split; [vm_compute; reflexivity|].
  intros done head name todo w2 w3 Hplan Hdone Hstep.
  assert (rename_plan (head_records colliding_raw) =
          [(mk_head "h2" "default" 20 None, "default-anonymous-1")])
    as Hone by (vm_compute; reflexivity).
  rewrite Hone in Hplan. clear Hone.
  destruct done as [|r1 [|r2 done]]; simplify_eq/=.
  injection Hdone as <-. vm_compute in Hstep. discriminate Hstep.
Qed.


(** The run on [own_bookmark_raw]: the script asks [hg] to put [h2] on
    [default], the branch it is on. *)
Example own_bookmark_commands :
  head_records own_bookmark_raw = own_bookmark_heads ∧
  call_argv <$>
    calls (@fix_branches
             (example_platform "posix" own_bookmark_raw [] never_fails)
             "/src/repo" (example_world [] ["/src/repo"])).2 =
  [hg_heads_cmd; ["hg"; "up"; "h2"];
   ["hg"; "phase"; "--draft"; "--force"; "h2"];
   ["hg"; "branch"; "default"];
   ["hg"; "log"; "-r"; "h2"; "--template"; "{desc}"];
   ["hg"; "commit"; "--amend"; "-m"; "msg"]].
Proof. split; vm_compute; reflexivity. Qed.

Lemma bookmark_is_new_name_witness :
  (mk_head "h2" "default" 20 (Some "foo"), "foo")
    ∈ rename_plan bookmarked_then_unnamed.
Proof.
  destruct (bookmark_is_new_name bookmarked_then_unnamed "default"
              bookmarked_then_unnamed 0
              (mk_head "h2" "default" 20 (Some "foo")) "foo")
    as (_ & Hin & _).
  - vm_compute. reflexivity.
  - reflexivity.
  - reflexivity.
  - exact Hin.
Defined.

Lemma anonymous_name_counts_unnamed_witness :
  renames_of_group ("default", bookmarked_then_unnamed) !! 1%nat =
    Some (mk_head "h3" "default" 10 None, anonymous_name "default" 1).
Proof.
  destruct (anonymous_name_counts_unnamed bookmarked_then_unnamed "default"
              bookmarked_then_unnamed 1
              (mk_head "h3" "default" 10 None))
    as (Hlookup & _ & _).
  - vm_compute. reflexivity.
  - reflexivity.
  - reflexivity.
  - exact Hlookup.
Defined.

Lemma sort_keeps_inspector_order_witness :
  filter (at_time 10)
    [mk_head "h2" "default" 20 None; mk_head "h1" "default" 10 None;
     mk_head "h3" "default" 10 (Some "foo")] =
  filter (at_time 10) (filter (on_branch "default") tied_heads).
Proof.
  destruct (sort_keeps_inspector_order tied_heads "default"
              [mk_head "h2" "default" 20 None; mk_head "h1" "default" 10 None;
               mk_head "h3" "default" 10 (Some "foo")] 10)
    as (_ & _ & Horder).
  - vm_compute. reflexivity.
  - exact Horder.
Defined.


Lemma existing_destination_untouched_witness :
  @process_repo (example_platform "posix" three_heads [] never_fails)
    "/src/repo" "/out/repo" [] "/bin/bash"
    (example_world [] ["/src/repo"; "/out/repo"]) =
  (Raise (SystemExit 1),
   add_stdout (already_exists_msg "/out/repo")
     (example_world [] ["/src/repo"; "/out/repo"])).
Proof.
  apply (@existing_destination_untouched
           (example_platform "posix" three_heads [] never_fails)).
  by_decide.
Defined.

Lemma single_heads_no_renames_witness :
  @fix_branches (example_platform "posix" single_heads [] never_fails)
    "/src/repo" (example_world [] ["/src/repo"]) =
  (Ok tt,
   add_call {| call_cwd := "/src/repo"; call_argv := hg_heads_cmd;
               call_env := None |} (example_world [] ["/src/repo"])).
Proof.
  destruct (@single_heads_no_renames
              (example_platform "posix" single_heads [] never_fails)
              "/src/repo" (example_world [] ["/src/repo"])
              (add_call {| call_cwd := "/src/repo"; call_argv := hg_heads_cmd;
                           call_env := None |}
                 (example_world [] ["/src/repo"]))
              (head_records single_heads))
    as (_ & Hfix & _).
  - vm_compute. reflexivity.
  - by_decide.
  - exact Hfix.
Defined.

(** * Further properties of the grouping and of the names *)

Section more_naming.
Implicit Types (h head : Head) (l heads group : list Head) (b name : string).

Lemma names_of_group_length b group :
  group ≠ [] →
  length (names_of_group (b, group)) = S (length (renames_of_group (b, group))).
Proof. by destruct group. Qed.

Lemma filter_list_bind {A B} (P : B → Prop) `{∀ x, Decision (P x)}
    (f : A → list B) (l : list A) :
  filter P (l ≫= f) = l ≫= (λ x, filter P (f x)).
Proof.
  induction l as [|x l IH]; [done|]. by rewrite !bind_cons, filter_app, IH.
Qed.

(** The names synthesized for one group from a given value of the counter
    are pairwise different. *)
Lemma renames_unnamed_NoDup b c l :
  NoDup (filter (λ r, unnamed r.1) (renames b c l)).*2.
Proof.
  revert c. induction l as [|x l IH]; intros c; simpl; [constructor|].
  unfold new_branch_name. destruct (bookmark x) as [bx|] eqn:Ex.
  - rewrite filter_cons_False by (unfold unnamed; simpl; congruence).
    apply IH.
  - rewrite filter_cons_True by done. simpl. apply NoDup_cons. split; [|apply IH].
    intros ([h name] & Hname & [Hun Hin]%list_elem_of_filter)%list_elem_of_fmap.
    simpl in Hname, Hun. subst name.
    apply renames_name_cases in Hin as [_ [Hbm|(n & Hn & Heq)]].
    + unfold unnamed in Hun. congruence.
    + apply anonymous_name_inj in Heq as [_ ->]. lia.
Qed.

End more_naming.

(** X1.  The head that keeps the name of its branch has the greatest
    timestamp of the heads of the branch, and of the heads with that
    timestamp it is the one [get_heads] returned first. *)
Theorem primary_head_is_newest (all_heads : list Head) (b : string)
    (primary : Head) (rest : list Head) :
  heads_by_branch all_heads !! b = Some (primary :: rest) →
  (∀ h, h ∈ all_heads → branch h = b → timestamp h ≤ timestamp primary) ∧
  head (filter (at_time (timestamp primary))
          (filter (on_branch b) all_heads)) = Some primary.
Proof.
  intros Hg. pose proof (heads_by_branch_Some _ _ _ Hg) as [Hsort _]. split.
  - intros h Hh Hb.
    assert (h ∈ primary :: rest) as Hin.
    { rewrite Hsort, sort_newest_first_perm. by apply list_elem_of_filter. }
    pose proof (sort_newest_first_sorted (filter (on_branch b) all_heads)) as Hs.
    rewrite <- Hsort in Hs.
    apply (@Sorted_StronglySorted _ _ newest_first_transitive) in Hs.
    apply StronglySorted_inv in Hs as [_ Hall]. rewrite Forall_forall in Hall.
    apply elem_of_cons in Hin as [->|Hin]; [done|]. by apply Hall.
  - rewrite <- (sort_newest_first_at_time _ (filter (on_branch b) all_heads)).
    rewrite <- Hsort. by rewrite filter_cons_True.
Qed.

(** X2.  The renames and the groups add up to the heads: every head
    that [get_heads] returns is renamed, except one head for each branch. *)
Theorem rename_plan_length (all_heads : list Head) :
  (length (rename_plan all_heads) + size (heads_by_branch all_heads)
   = length all_heads)%nat.
Proof.
  rewrite <- (Permutation_length (final_names_heads all_heads)).
  rewrite length_fmap. unfold final_names, rename_plan.
  rewrite <- length_map_to_list.
  assert (Forall (λ g, g.2 ≠ [])
            (map_to_list (heads_by_branch all_heads))) as Hne.
  { apply Forall_forall. intros [b g] Hg%elem_of_map_to_list.
    by eapply group_not_empty. }
  induction Hne as [|[b g] groups Hg _ IH]; [done|].
  rewrite !bind_cons, !length_app. simpl in *.
  rewrite names_of_group_length by done. lia.
Qed.

(** X3.  A head without a bookmark that is renamed goes to a synthesized
    name of its own branch, which is never the name of that branch. *)
Theorem synthesized_name_leaves_branch (all_heads : list Head) (h : Head)
    (name : string) :
  (h, name) ∈ rename_plan all_heads →
  bookmark h = None →
  name ≠ branch h ∧ ∃ n, (1 ≤ n)%N ∧ name = anonymous_name (branch h) n.
Proof.
  intros (b & group & Hg & Hin)%elem_of_rename_plan Hbm.
  apply renames_name_cases in Hin as [Hh [Hsome|(n & Hn & ->)]]; [congruence|].
  assert (h ∈ group) as Hhg by (destruct group; [done|by right]).
  destruct (heads_by_branch_elem _ _ _ _ Hg Hhg) as [_ ->].
  split; [apply anonymous_name_not_branch|by exists n].
Qed.

(** X4.  The synthesized names of one run are pairwise different, in a
    group and from one group to another, whatever the names of the
    branches are. *)
Theorem synthesized_names_distinct (all_heads : list Head) :
  NoDup (filter (λ r, unnamed r.1) (rename_plan all_heads)).*2.
Proof.
  unfold rename_plan. rewrite filter_list_bind, fmap_list_bind.
  apply NoDup_bind.
  - intros [b1 g1] [b2 g2] y Hg1%elem_of_map_to_list Hg2%elem_of_map_to_list.
    intros ([h1 y1] & Hy1 & [Hu1 Hin1]%list_elem_of_filter)%list_elem_of_fmap.
    intros ([h2 y2] & Hy2 & [Hu2 Hin2]%list_elem_of_filter)%list_elem_of_fmap.
    unfold renames_of_group in Hin1, Hin2.
    simpl in *. subst y1 y2. unfold unnamed in Hu1, Hu2.
    apply renames_name_cases in Hin1 as [_ [?|(n1 & _ & ->)]]; [congruence|].
    apply renames_name_cases in Hin2 as [_ [?|(n2 & _ & Heq)]]; [congruence|].
    apply anonymous_name_inj in Heq as [-> _].
    rewrite Hg1 in Hg2. by injection Hg2 as ->.
  - intros [b g] _. unfold renames_of_group. apply renames_unnamed_NoDup.
  - apply NoDup_map_to_list.
Qed.

(** * Strings *)

Section more_strings.
Implicit Types (s t : string) (data : list Byte.byte).

Lemma hex_digit_inj (n m : N) :
  (n < 16)%N → (m < 16)%N → hex_digit n = hex_digit m → n = m.
Proof.
  intros Hn Hm. unfold hex_digit. intros Heq. apply N2Nat.inj.
  assert (N.to_nat n < 16)%nat as Hi by lia.
  assert (N.to_nat m < 16)%nat as Hj by lia.
  revert Heq Hi Hj. generalize (N.to_nat n) (N.to_nat m). intros i j Heq Hi Hj.
  do 16 (destruct i as [|i];
         [do 16 (destruct j as [|j]; [first [done|discriminate Heq]|]); lia|]).
  lia.
Qed.

Lemma byte_hex_digits_inj (b1 b2 : Byte.byte) :
  hex_digit (Byte.to_N b1 / 16) = hex_digit (Byte.to_N b2 / 16) →
  hex_digit (Byte.to_N b1 `mod` 16) = hex_digit (Byte.to_N b2 `mod` 16) →
  b1 = b2.
Proof.
  intros Hhi Hlo.
  pose proof (Byte.to_N_bounded b1). pose proof (Byte.to_N_bounded b2).
  apply hex_digit_inj in Hhi;
    [|apply N.Div0.div_lt_upper_bound; lia|apply N.Div0.div_lt_upper_bound; lia].
  apply hex_digit_inj in Hlo; [|by apply N.mod_lt..].
  assert (Byte.to_N b1 = Byte.to_N b2) as Heq.
  { rewrite (N.div_mod (Byte.to_N b1) 16), (N.div_mod (Byte.to_N b2) 16) by done.
    by rewrite Hhi, Hlo. }
  apply (inj Some). by rewrite <- !Byte.of_to_N, Heq.
Qed.

Lemma string_app_nil_r s : s +:+ EmptyString = s.
Proof. induction s as [|c s IH]; [done|]. by rewrite string_app_cons, IH. Qed.

Lemma string_snoc_not_empty t c : t +:+ String c EmptyString ≠ EmptyString.
Proof. by destruct t. Qed.

Lemma split_eq_once_lacks s : lacks "=" s → split_eq_once s = [s].
Proof.
  induction s as [|c s IH]; simpl; [done|]. intros [Hc Hs].
  rewrite decide_False by done. by rewrite IH.
Qed.

Lemma split_eq_once_app key value :
  lacks "=" key → split_eq_once (key +:+ String "=" value) = [key; value].
Proof.
  induction key as [|c key IH]; [done|]. intros [Hc Hkey].
  rewrite string_app_cons. simpl. rewrite decide_False by done.
  by rewrite IH.
Qed.

Lemma prefix_app p s t :
  String.prefix p s = true → String.prefix p (s +:+ t) = true.
Proof.
  revert p. induction s as [|c' s IH]; intros p.
  - rewrite string_app_nil_l. destruct p as [|c p]; [by destruct t|done].
  - rewrite string_app_cons. simpl. destruct p as [|c p]; [done|].
    destruct (Ascii.ascii_dec c c'); [apply IH|done].
Qed.

End more_strings.

(** X5.  [hexlify] writes two characters for every byte, and different
    byte strings have different images: the names of two copies differ as
    soon as their random bytes do. *)
Theorem hexlify_length_inj (d1 d2 : list Byte.byte) :
  String.length (hexlify d1) = (2 * length d1)%nat ∧
  (hexlify d1 = hexlify d2 → d1 = d2).
Proof.
  split.
  - induction d1 as [|b d1 IH]; simpl; [done|]. rewrite IH. lia.
  - revert d2. induction d1 as [|b1 d1 IH]; intros [|b2 d2]; simpl; try done.
    intros [= Hhi Hlo Hrest]. f_equal; [by apply byte_hex_digits_inj|by apply IH].
Qed.

(** X6.  The commit message that [fix_branches] passes to [hg commit] is
    the output of [hg log] without the newlines at its end: nothing else
    is cut, and what is left does not end with a newline. *)
Theorem rstrip_newline_spec (s : string) :
  (∃ k, s = rstrip_newline s +:+ newlines k) ∧
  (∀ t, rstrip_newline s ≠ t +:+ String newline EmptyString).
Proof.
  induction s as [|c s [[k Hk] Hend]]; simpl.
  - split; [by exists 0%nat|]. intros t Ht. symmetry in Ht.
    by apply string_snoc_not_empty in Ht.
  - case_decide as Hcase.
    + destruct Hcase as [Hr ->]. split.
      * exists (S k). rewrite Hr in Hk. by rewrite Hk.
      * intros t Ht. symmetry in Ht. by apply string_snoc_not_empty in Ht.
    + split.
      * exists k. by rewrite string_app_cons, <- Hk.
      * intros [|c' t]; rewrite ?string_app_nil_l, ?string_app_cons.
        -- intros [= -> Hr]. by apply Hcase.
        -- intros [= -> Hr]. by apply (Hend t).
Qed.

(** * Paths and child processes *)

Section more_effects.
Context `{Platform}.

Lemma same_fs_ret {A} (a : A) : same_fs (mret a).
Proof. by intros w. Qed.

Lemma same_fs_raise {A} (e : Exn) : same_fs (@raise A e).
Proof. by intros w. Qed.

Lemma same_fs_bind {A B} (m : M A) (f : A → M B) :
  same_fs m → (∀ a, same_fs (f a)) → same_fs (m ≫= f).
Proof.
  intros Hm Hf w. unfold mbind, M_bind. specialize (Hm w).
  destruct (m w) as [[a|e] w']; simpl in *; [|done].
  by rewrite (Hf a w').
Qed.

Lemma same_fs_check_call_env argv env : same_fs (check_call_env argv env).
Proof.
  apply same_fs_bind; [by intros w|].
  intros r. case_decide; [apply same_fs_ret|apply same_fs_raise].
Qed.

Lemma same_fs_check_output argv : same_fs (subprocess_check_output argv).
Proof.
  apply same_fs_bind; [by intros w|].
  intros r. case_decide; [apply same_fs_ret|apply same_fs_raise].
Qed.

Lemma same_fs_for_each {A} (l : list A) (body : A → M unit) :
  (∀ x, same_fs (body x)) → same_fs (for_each l body).
Proof.
  intros Hbody. induction l as [|x l IH]; simpl; [apply same_fs_ret|].
  apply same_fs_bind; [done|]. by intros _.
Qed.

Lemma same_fs_switch_directory {A} (directory : string) (body : M A) :
  same_fs body → same_fs (switch_directory directory body).
Proof.
  intros Hbody w. unfold switch_directory, mbind, M_bind, os_getcwd.
  destruct (fs w !! cwd w) as [[]|]; [done| |done].
  unfold try_finally, os_chdir.
  destruct (fs w !! directory) as [[]|]; simpl.
  - by destruct (fs w !! cwd w) as [[]|].
  - specialize (Hbody (set_cwd directory w)).
    destruct (body (set_cwd directory w)) as [r w1]. simpl in Hbody.
    by destruct (fs w1 !! cwd w) as [[]|], r.
  - by destruct (fs w !! cwd w) as [[]|].
Qed.

Lemma same_fs_get_heads hg_repo : same_fs (get_heads hg_repo).
Proof.
  unfold get_heads.
  apply same_fs_bind;
    [apply same_fs_switch_directory, same_fs_check_output|].
  intros output. apply same_fs_bind; [|intros heads; apply same_fs_ret].
  destruct (json_loads output); [apply same_fs_ret|apply same_fs_raise].
Qed.

Lemma same_fs_amend_head hg_repo head new_name :
  same_fs (amend_head hg_repo head new_name).
Proof.
  apply same_fs_switch_directory.
  repeat (apply same_fs_bind; [apply same_fs_check_call_env|]; intros _).
  apply same_fs_bind; [apply same_fs_check_output|].
  intros out. apply same_fs_check_call_env.
Qed.

Lemma same_fs_fix_branches hg_repo : same_fs (fix_branches hg_repo).
Proof.
  unfold fix_branches. apply same_fs_bind; [apply same_fs_get_heads|].
  intros all_heads. apply same_fs_for_each. intros [b g]. simpl.
  generalize 1%N. induction (tail g) as [|head rest IH]; intros c; simpl;
    [apply same_fs_ret|].
  destruct (new_branch_name b c head) as [name c'].
  apply same_fs_bind; [apply same_fs_amend_head|]. by intros _.
Qed.

Lemma same_fs_convert hg_repo_copy git_repo fast_export_args bash :
  same_fs (convert hg_repo_copy git_repo fast_export_args bash).
Proof.
  apply same_fs_switch_directory.
  apply same_fs_bind; [apply same_fs_check_call_env|].
  intros _. apply same_fs_check_call_env.
Qed.

Lemma children_ret P {A} (a : A) : children P (mret a).
Proof. intros w. exists []. by rewrite app_nil_r. Qed.

Lemma children_raise P {A} (e : Exn) : children P (@raise A e).
Proof. intros w. exists []. by rewrite app_nil_r. Qed.

Lemma children_weaken (P Q : string → Call → Prop) {A} (m : M A) :
  (∀ d c, P d c → Q d c) → children P m → children Q m.
Proof.
  intros HPQ Hm w. destruct (Hm w) as (new & Hcalls & Hnew).
  exists new. split; [done|]. eapply Forall_impl; [done|]. apply HPQ.
Qed.

Lemma children_bind P {A B} (m : M A) (f : A → M B) :
  children P m → keeps_cwd m → (∀ a, children P (f a)) →
  children P (m ≫= f).
Proof.
  intros Hm Hcwd Hf w. unfold mbind, M_bind.
  destruct (Hm w) as (new & Hcalls & Hnew). destruct (Hcwd w) as [Hc _].
  destruct (m w) as [[a|e] w']; simpl in *; [|by exists new].
  destruct (Hf a w') as (new' & Hcalls' & Hnew').
  exists (new ++ new'). rewrite Hcalls', Hcalls, app_assoc. split; [done|].
  apply Forall_app. split; [done|]. by rewrite <- Hc.
Qed.

Lemma children_check_call_env argv env :
  children (λ d c, call_cwd c = d ∧ call_argv c = argv ∧ call_env c = env)
    (check_call_env argv env).
Proof.
  intros w. unfold check_call_env, mbind, M_bind, run_child.
  eexists [_]. split; [by case_decide|]. by repeat constructor.
Qed.

Lemma children_check_output argv :
  children (λ d c, call_cwd c = d ∧ call_argv c = argv ∧ call_env c = None)
    (subprocess_check_output argv).
Proof.
  intros w. unfold subprocess_check_output, mbind, M_bind, run_child.
  eexists [_]. split; [by case_decide|]. by repeat constructor.
Qed.

Lemma children_for_each P {A} (l : list A) (body : A → M unit) :
  (∀ x, children P (body x)) → (∀ x, keeps_cwd (body x)) →
  children P (for_each l body).
Proof.
  intros Hbody Hcwd. induction l as [|x l IH]; simpl; [apply children_ret|].
  apply children_bind; [done..|]. by intros _.
Qed.

(** The children of the block under [with] are started in [directory]. *)
Lemma children_switch_directory (Q : string → Call → Prop) {A}
    (directory : string) (body : M A) :
  children Q body →
  children (λ _ c, Q directory c) (switch_directory directory body).
Proof.
  intros Hbody w. unfold switch_directory, mbind, M_bind, os_getcwd.
  destruct (fs w !! cwd w) as [[]|];
    [by exists []; rewrite app_nil_r| |by exists []; rewrite app_nil_r].
  unfold try_finally, os_chdir.
  destruct (fs w !! directory) as [[]|]; simpl.
  - exists []. rewrite app_nil_r. by destruct (fs w !! cwd w) as [[]|].
  - destruct (Hbody (set_cwd directory w)) as (new & Hcalls & Hnew).
    destruct (body (set_cwd directory w)) as [r w1]. simpl in *.
    exists new. split; [|done].
    by destruct (fs w1 !! cwd w) as [[]|], r.
  - exists []. rewrite app_nil_r. by destruct (fs w !! cwd w) as [[]|].
Qed.

Lemma children_hg_call argv :
  head argv = Some "hg" →
  children (λ d c, hg_call_in d c) (subprocess_check_call argv).
Proof.
  intros Hhg. eapply children_weaken; [|apply children_check_call_env].
  intros d c (? & Hargv & ?). unfold hg_call_in. by rewrite Hargv.
Qed.

Lemma children_amend_head hg_repo head new_name :
  children (λ _ c, hg_call_in hg_repo c) (amend_head hg_repo head new_name).
Proof.
  apply (children_switch_directory (λ d c, hg_call_in d c)).
  repeat (apply children_bind;
          [by apply children_hg_call|apply keeps_cwd_check_call|]; intros _).
  apply children_bind; [|apply keeps_cwd_check_output|].
  - eapply children_weaken; [|apply children_check_output].
    intros d c (? & Hargv & ?). unfold hg_call_in. by rewrite Hargv.
  - intros out. by apply children_hg_call.
Qed.

Lemma children_get_heads hg_repo :
  children (λ _ c, hg_call_in hg_repo c) (get_heads hg_repo).
Proof.
  unfold get_heads. apply children_bind.
  - apply (children_switch_directory (λ d c, hg_call_in d c)).
    eapply children_weaken; [|apply children_check_output].
    intros d c (? & Hargv & ?). unfold hg_call_in. by rewrite Hargv.
  - apply keeps_cwd_switch_directory, keeps_cwd_check_output.
  - intros output. apply children_bind; [| |intros; apply children_ret].
    + destruct (json_loads output); [apply children_ret|apply children_raise].
    + destruct (json_loads output); [apply keeps_cwd_ret|apply keeps_cwd_raise].
Qed.

Lemma children_fix_branches hg_repo :
  children (λ _ c, hg_call_in hg_repo c) (fix_branches hg_repo).
Proof.
  unfold fix_branches.
  apply children_bind; [apply children_get_heads|apply keeps_cwd_get_heads|].
  intros all_heads. apply children_for_each.
  - intros [b g]. simpl. generalize 1%N.
    induction (tail g) as [|head rest IH]; intros c; simpl;
      [apply children_ret|].
    destruct (new_branch_name b c head) as [name c'].
    apply children_bind;
      [apply children_amend_head|apply keeps_cwd_amend_head|]. by intros _.
  - intros g. apply keeps_cwd_rename_heads.
Qed.

Lemma children_convert hg_repo_copy git_repo fast_export_args bash :
  children (λ _ c, call_cwd c = git_repo)
    (convert hg_repo_copy git_repo fast_export_args bash).
Proof.
  apply (children_switch_directory (λ d c, call_cwd c = d)).
  apply children_bind; [|apply keeps_cwd_check_call_env|].
  - eapply children_weaken; [|apply children_check_call_env]. by intros d c [? _].
  - intros _. eapply children_weaken; [|apply children_check_call_env].
    by intros d c [? _].
Qed.

End more_effects.

(** X7.  Every child process that [fix_branches] starts, whatever the
    outcome, is an [hg] command started in the repository it was given,
    with the environment of the script; the list of the earlier child
    processes is kept. *)
Theorem fix_branches_runs_hg_in_repo `{Platform} (hg_repo : string)
    (w : World) :
  ∃ new, calls (fix_branches hg_repo w).2 = calls w ++ new ∧
         Forall (hg_call_in hg_repo) new.
Proof. apply children_fix_branches. Qed.

Section more_lifecycle.
Context `{Platform}.

Lemma set_cwd_same w : set_cwd (cwd w) w = w.
Proof. by destruct w. Qed.

(** Inside an existing directory the block runs, and its outcome is the
    outcome of the [with] statement. *)
Lemma switch_directory_inside {A} (directory : string) (body : M A) w :
  fs w !! cwd w = Some Dir → fs w !! directory = Some Dir →
  fs w ⊆ fs (body (set_cwd directory w)).2 →
  switch_directory directory body w =
    ((body (set_cwd directory w)).1,
     set_cwd (cwd w) (body (set_cwd directory w)).2).
Proof.
  intros Hcwd Hdir Hfs.
  unfold switch_directory, mbind, M_bind, os_getcwd, try_finally, os_chdir.
  rewrite Hcwd, Hdir. simpl.
  destruct (body (set_cwd directory w)) as [r w1]. simpl in *.
  rewrite (lookup_weaken _ _ _ _ Hcwd Hfs). by destruct r.
Qed.

(** [os.makedirs] on a free path, when nothing stops it and when an
    error other than [EEXIST] does. *)
Lemma mkdir_p_free_Ok path w :
  fs w !! path = None → os_makedirs_error (fs w) path = None →
  mkdir_p path w =
    (Ok tt,
     set_fs (fs w ∪ dirs (os_makedirs_ancestors (fs w) path ++ [path])) w).
Proof.
  intros Hfree Herr. unfold mkdir_p, try_except, os_makedirs.
  by rewrite Hfree, Herr.
Qed.

Lemma mkdir_p_free_Raise path w errno :
  fs w !! path = None → os_makedirs_error (fs w) path = Some errno →
  errno ≠ EEXIST →
  mkdir_p path w =
    (Raise (OSError errno),
     set_fs (fs w ∪ dirs (os_makedirs_ancestors (fs w) path)) w).
Proof.
  intros Hfree Herr Hne.
  unfold mkdir_p, try_except, os_makedirs, mbind, M_bind, os_path_isdir.
  rewrite Hfree, Herr. simpl. by rewrite bool_decide_eq_false_2.
Qed.

(** On a free path [init_git_repo] goes on to [mkdir_p]. *)
Lemma init_git_repo_free git_repo w :
  fs w !! git_repo = None →
  init_git_repo git_repo w =
    (mkdir_p git_repo ;;
     subprocess_check_call ["git"; "init"; git_repo] ;;
     switch_directory git_repo
       (subprocess_check_call ["git"; "config"; "core.ignoreCase"; "false"]))
      w.
Proof.
  intros Hfree.
  unfold init_git_repo, mbind at 1 2, M_bind at 1 2, os_path_exists.
  by rewrite bool_decide_eq_false_2 by (rewrite Hfree; by intros [??]).
Qed.

(** On a free path that [os.makedirs] makes, [init_git_repo] goes on with
    its two [git] commands; an error of [os.makedirs] other than [EEXIST]
    ends it. *)
Lemma init_git_repo_made git_repo w :
  fs w !! git_repo = None → os_makedirs_error (fs w) git_repo = None →
  init_git_repo git_repo w =
    (subprocess_check_call ["git"; "init"; git_repo] ;;
     switch_directory git_repo
       (subprocess_check_call ["git"; "config"; "core.ignoreCase"; "false"]))
      (set_fs (fs w ∪ dirs (os_makedirs_ancestors (fs w) git_repo
                            ++ [git_repo])) w).
Proof.
  intros Hfree Herr. rewrite init_git_repo_free by done.
  unfold mbind at 1, M_bind at 1. by rewrite mkdir_p_free_Ok.
Qed.

Lemma init_git_repo_stopped git_repo w errno :
  fs w !! git_repo = None → os_makedirs_error (fs w) git_repo = Some errno →
  errno ≠ EEXIST →
  init_git_repo git_repo w =
    (Raise (OSError errno),
     set_fs (fs w ∪ dirs (os_makedirs_ancestors (fs w) git_repo)) w).
Proof.
  intros Hfree Herr Hne. rewrite init_git_repo_free by done.
  unfold mbind at 1, M_bind at 1. by rewrite (mkdir_p_free_Raise _ _ errno).
Qed.

(** The two [git] commands of [init_git_repo]: they change no path, and
    the first child process is [git init] in the working directory. *)
Lemma git_init_config git_repo w :
  let w' := (subprocess_check_call ["git"; "init"; git_repo] ;;
             switch_directory git_repo
               (subprocess_check_call
                  ["git"; "config"; "core.ignoreCase"; "false"])) w in
  fs w'.2 = fs w ∧
  ∃ rest, calls w'.2 =
            calls w ++ {| call_cwd := cwd w;
                          call_argv := ["git"; "init"; git_repo];
                          call_env := None |} :: rest.
Proof.
  intros w'. split.
  { apply (same_fs_bind (subprocess_check_call _) (λ _, switch_directory _ _)).
    - apply same_fs_check_call_env.
    - intros _. apply same_fs_switch_directory, same_fs_check_call_env. }
  unfold w', mbind, M_bind.
  unfold subprocess_check_call at 1, check_call_env, mbind, M_bind, run_child.
  case_decide; simpl; [|by exists []].
  match goal with |- context [switch_directory ?d ?body ?w0] =>
    destruct (children_switch_directory (λ _ _, True) d body
                (children_weaken _ _ _ (λ _ _ _, I)
                   (children_check_call_env _ _)) w0)
      as (new & Hcalls & _)
  end.
  exists new. rewrite Hcalls. simpl. by rewrite <- app_assoc.
Qed.

End more_lifecycle.

(** X8.  [mkdir_p] does nothing when the path is a directory already and
    raises [OSError(EEXIST)] without any change when the path is a file.
    On a free path it changes the paths only and takes none away (it may
    make directories above the path); when it returns the path is a
    directory, and when it raises, the error is the one that stopped
    [os.makedirs].  A second [mkdir_p] of the same path changes
    nothing. *)
Theorem mkdir_p_cases `{Platform} (path : string) (w : World) :
  match fs w !! path with
  | Some Dir => mkdir_p path w = (Ok tt, w)
  | Some File => mkdir_p path w = (Raise (OSError EEXIST), w)
  | None =>
      ∃ r F, mkdir_p path w = (r, set_fs F w) ∧ fs w ⊆ F ∧
             match r with
             | Ok _ => F !! path = Some Dir
             | Raise e => ∃ errno, e = OSError errno ∧
                                   os_makedirs_error (fs w) path = Some errno
             end
  end ∧
  (mkdir_p path ;; mkdir_p path) w = mkdir_p path w.
Proof.
  pose proof (mkdir_p_outcome path w) as Hcases.
  split; [exact Hcases|].
  unfold mbind, M_bind.
  destruct (fs w !! path) as [[]|] eqn:E.
  - by rewrite Hcases.
  - rewrite Hcases. pose proof (mkdir_p_outcome path w) as Hagain.
    rewrite E in Hagain. by rewrite Hagain.
  - destruct Hcases as (r & F & -> & _ & Hr). destruct r as [[]|e]; [|done].
    pose proof (mkdir_p_outcome path (set_fs F w)) as Hagain.
    simpl in Hagain. rewrite Hr in Hagain. by rewrite Hagain.
Qed.

(** X9.  When the working directory and the target of [switch_directory]
    exist and the block removes no path, the block runs with the target as
    working directory, and the [with] statement ends as the block ends,
    its result or its exception, back in the first directory. *)
Theorem switch_directory_runs_block {A} (directory : string)
    (body : M A) (w w1 : World) (r : Res A) :
  fs w !! cwd w = Some Dir →
  fs w !! directory = Some Dir →
  keeps_cwd body →
  body (set_cwd directory w) = (r, w1) →
  switch_directory directory body w = (r, set_cwd (cwd w) w1).
Proof.
  intros Hcwd Hdir Hbody Hrun.
  rewrite switch_directory_inside; [by rewrite Hrun|done..|].
  by destruct (Hbody (set_cwd directory w)).
Qed.

(** X10.  When the target of [switch_directory] is not a directory, the
    block is not run: the statement raises [OSError] and the world is as
    before. *)
Theorem switch_directory_missing_target {A} (directory : string)
    (body : M A) (w : World) :
  fs w !! directory ≠ Some Dir →
  ∃ errno, switch_directory directory body w = (Raise (OSError errno), w).
Proof.
  intros Hdir. unfold switch_directory, mbind, M_bind, os_getcwd.
  destruct (fs w !! cwd w) as [[]|] eqn:Ecwd; [by eauto| |by eauto].
  unfold try_finally, os_chdir.
  destruct (fs w !! directory) as [[]|] eqn:Edir; simpl; rewrite ?Ecwd;
    [|done|]; rewrite set_cwd_same; by eauto.
Qed.

(** X11.  On a free path [init_git_repo] takes no path away, whatever
    happens.  When nothing stops [os.makedirs], the destination is a
    directory afterwards, also when a [git] command fails, and the first
    child process is [git init], started in the working directory of the
    script.  When an error other than [EEXIST] stops [os.makedirs] (a
    file above the destination), [init_git_repo] raises that error and no
    child process is run. *)
Theorem init_git_repo_creates_destination `{Platform} (git_repo : string)
    (w : World) :
  fs w !! git_repo = None →
  let w' := (init_git_repo git_repo w).2 in
  fs w ⊆ fs w' ∧
  (os_makedirs_error (fs w) git_repo = None →
   fs w' !! git_repo = Some Dir ∧
   ∃ rest, calls w' = calls w ++ {| call_cwd := cwd w;
                                    call_argv := ["git"; "init"; git_repo];
                                    call_env := None |} :: rest) ∧
  (∀ errno, os_makedirs_error (fs w) git_repo = Some errno →
            errno ≠ EEXIST →
            (init_git_repo git_repo w).1 = Raise (OSError errno) ∧
            calls w' = calls w).
Proof.
  intros Hfree w'. split_and!.
  - apply keeps_cwd_init_git_repo.
  - intros Herr.
    destruct (git_init_config git_repo
                (set_fs (fs w ∪ dirs (os_makedirs_ancestors (fs w) git_repo
                                      ++ [git_repo])) w)) as [Hfs Hcalls].
    unfold w'. rewrite init_git_repo_made by done. split; [|exact Hcalls].
    rewrite Hfs. simpl. apply union_dirs_new; [done|].
    apply elem_of_app. right. left.
  - intros errno Herr Hne.
    unfold w'. by rewrite (init_git_repo_stopped _ _ errno).
Qed.

(** X12.  [copy_hg_repo] names the copy after the source and its random
    bytes, needs the source to be a directory, and never writes over a
    path that exists: whatever happens, every path that existed is as it
    was.  When it returns, the copy is a directory that was not there
    before.  When it fails it raises [OSError] or, for entries of the
    source that could not be copied, [shutil.Error]; in that case the
    copy has been made and is left behind. *)
Theorem copy_hg_repo_never_overwrites `{Platform} (hg_repo : string)
    (w : World) :
  let copy := os_path_join gettempdir
                (os_path_basename hg_repo +:+ "-" +:+
                 hexlify (os_urandom (urandom_reads w) 16)) in
  match copy_hg_repo hg_repo w with
  | (Ok c, w') =>
      c = copy ∧ fs w !! hg_repo = Some Dir ∧ fs w !! copy = None ∧
      fs w' !! copy = Some Dir ∧ fs w ⊆ fs w'
  | (Raise e, w') =>
      fs w ⊆ fs w' ∧
      ((∃ errno, e = OSError errno) ∨
       (e = ShutilError ∧ fs w !! hg_repo = Some Dir ∧
        fs w !! copy = None ∧ fs w' !! copy = Some Dir))
  end.
Proof.
  intros copy.
  destruct (copy_hg_repo_cases hg_repo w) as (r & F & -> & Hfs & Hr).
  fold copy in Hr. destruct r as [c|e]; simpl.
  - destruct Hr as (? & ? & ? & ?). by split_and!.
  - by split.
Qed.

Section more_process_repo.
Context `{Platform}.

Lemma subseteq_delete_free (F F' : gmap string Node) path :
  F ⊆ F' → F !! path = None → F ⊆ delete path F'.
Proof.
  intros Hsub Hfree. apply map_subseteq_spec. intros p n Hp.
  rewrite lookup_delete_ne by congruence. by eapply lookup_weaken.
Qed.

(** The removal of a path that was free at first takes nothing away of
    what was there at first. *)
Lemma try_finally_rmtree_keeps {A} (body : M A) path w
    (F : gmap string Node) :
  same_fs body → F ⊆ fs w → F !! path = None →
  F ⊆ fs (try_finally body (shutil_rmtree path) w).2.
Proof.
  intros Hbody Hsub Hfree. unfold try_finally. specialize (Hbody w).
  destruct (body w) as [r w2]. simpl in Hbody.
  unfold shutil_rmtree.
  destruct (fs w2 !! path) as [[]|]; simpl;
    [by rewrite Hbody| |by rewrite Hbody].
  rewrite Hbody. by apply subseteq_delete_free.
Qed.

Lemma children_try_finally_rmtree P {A} (body : M A) path :
  children P body → children P (try_finally body (shutil_rmtree path)).
Proof.
  intros Hbody w. unfold try_finally. destruct (Hbody w) as (new & Hcalls & Hnew).
  destruct (body w) as [r w2]. simpl in *. exists new. split; [|done].
  unfold shutil_rmtree. by destruct (fs w2 !! path) as [[]|].
Qed.

Lemma children_init_git_repo git_repo :
  children (λ d c, call_cwd c = d ∨ call_cwd c = git_repo)
    (init_git_repo git_repo).
Proof.
  unfold init_git_repo.
  apply children_bind; [by intros w; exists []; rewrite app_nil_r|by intros w|].
  intros exists_. apply children_bind.
  { destruct exists_; [|apply children_ret].
    intros w. exists []. by rewrite app_nil_r. }
  { destruct exists_; [by intros w|apply keeps_cwd_ret]. }
  intros _. apply children_bind; [|apply keeps_cwd_mkdir_p|].
  { intros w. exists []. rewrite app_nil_r. split; [|done].
    by destruct (mkdir_p_frame git_repo w) as (F & -> & _). }
  intros _. apply children_bind; [|apply keeps_cwd_check_call|].
  { eapply children_weaken; [|apply children_check_call_env].
    intros d c [? _]. by left. }
  intros _.
  eapply children_weaken;
    [|apply (children_switch_directory (λ d c, call_cwd c = d))].
  { intros d c ?. by right. }
  eapply children_weaken; [|apply children_check_call_env]. by intros d c [? _].
Qed.

End more_process_repo.

Section more_process_repo_steps.
Context `{Platform}.

Lemma process_repo_steps hg_repo git_repo fast_export_args bash w :
  process_repo hg_repo git_repo fast_export_args bash w =
    match init_git_repo git_repo w with
    | (Ok _, w0) =>
        match copy_hg_repo hg_repo w0 with
        | (Ok copy, w1) =>
            try_finally
              (fix_branches copy ;;
               convert copy git_repo fast_export_args bash)
              (shutil_rmtree copy) w1
        | (Raise e, w1) => (Raise e, w1)
        end
    | (Raise e, w0) => (Raise e, w0)
    end.
Proof. reflexivity. Qed.

Lemma set_cwd_add_call d c w :
  set_cwd (cwd w) (add_call c (set_cwd d w)) = add_call c w.
Proof. by destruct w. Qed.

End more_process_repo_steps.

(** X13.  [get_heads] on an existing repository runs exactly one child
    process, [hg heads] in the repository.  It raises [CalledProcessError]
    when [hg] fails and [ValueError] when the output is not the JSON it
    expects; otherwise it returns the records of the heads.  In every case
    the world changes by that one child process only. *)
Theorem get_heads_outcomes `{Platform} (hg_repo : string) (w : World) :
  fs w !! cwd w = Some Dir →
  fs w !! hg_repo = Some Dir →
  let c := {| call_cwd := hg_repo; call_argv := hg_heads_cmd;
              call_env := None |} in
  get_heads hg_repo w =
    (if decide ((child (calls w) c).1 = 0)
     then match json_loads (child (calls w) c).2 with
          | Some heads => Ok (head_records heads)
          | None => Raise ValueError
          end
     else Raise (CalledProcessError (child (calls w) c).1 hg_heads_cmd),
     add_call c w).
Proof.
  intros Hcwd Hrepo c. unfold get_heads, mbind at 1, M_bind at 1.
  rewrite switch_directory_inside;
    [|done..|by rewrite (same_fs_check_output hg_heads_cmd)].
  unfold subprocess_check_output, mbind, M_bind, run_child. simpl. fold c.
  case_decide; simpl; rewrite set_cwd_add_call; [|done].
  by destruct (json_loads _).
Qed.

(** X14.  [process_repo] takes away or changes no path that existed when
    it started, whatever happens: what it removes at the end is the copy,
    which it made on a free path.  So the source is as it was, and so is
    everything else that was there. *)
Theorem process_repo_keeps_existing_paths `{Platform}
    (hg_repo git_repo : string) (fast_export_args : list string)
    (bash : string) (w : World) :
  fs w ⊆ fs (process_repo hg_repo git_repo fast_export_args bash w).2.
Proof.
  rewrite process_repo_steps.
  destruct (keeps_cwd_init_git_repo git_repo w) as [_ Hinit].
  destruct (init_git_repo git_repo w) as [[[]|e] w0]; simpl in Hinit; [|done].
  destruct (copy_hg_repo_cases hg_repo w0) as (r & F & -> & Hfs & Hr).
  destruct r as [copy|e]; simpl; [|by etrans].
  destruct Hr as (-> & _ & Hfree & _).
  apply try_finally_rmtree_keeps.
  - apply same_fs_bind; [apply same_fs_fix_branches|].
    intros _. apply same_fs_convert.
  - by etrans.
  - by eapply lookup_weaken_None.
Qed.

(** X15.  Every child process of [process_repo] is started in the
    working directory of the script, in the destination or in the copy of
    the source, which is named after the source and random bytes in the
    temporary directory. *)
Theorem process_repo_children `{Platform} (hg_repo git_repo : string)
    (fast_export_args : list string) (bash : string) (w : World) :
  ∃ data new,
    calls (process_repo hg_repo git_repo fast_export_args bash w).2
      = calls w ++ new ∧
    Forall (λ c, call_cwd c = cwd w ∨ call_cwd c = git_repo ∨
                 call_cwd c = os_path_join gettempdir
                                (os_path_basename hg_repo +:+ "-" +:+
                                 hexlify data)) new.
Proof.
  rewrite process_repo_steps.
  destruct (children_init_git_repo git_repo w) as (new0 & Hcalls0 & Hnew0).
  assert (Forall (λ c, ∀ copy, call_cwd c = cwd w ∨ call_cwd c = git_repo ∨
                               call_cwd c = copy) new0) as Hnew0'.
  { eapply Forall_impl; [done|]. intros c [?|?] copy; by eauto. }
  destruct (init_git_repo git_repo w) as [[[]|e] w0]; simpl in Hcalls0.
  2:{ exists [], new0. split; [done|]. eapply Forall_impl; [done|]. by intros c ?. }
  destruct (copy_hg_repo_cases hg_repo w0) as (r & F & -> & _ & Hr).
  destruct r as [copy|e].
  2:{ exists [], new0. simpl.
      split; [done|]. eapply Forall_impl; [done|]. by intros c ?. }
  destruct Hr as (Hname & _).
  destruct (children_try_finally_rmtree
              (λ _ c, call_cwd c = copy ∨ call_cwd c = git_repo)
              (fix_branches copy ;;
               convert copy git_repo fast_export_args bash) copy)
    with (set_fs F (add_urandom_read w0))
    as (new1 & Hcalls2 & Hnew1).
  { apply children_bind; [|apply keeps_cwd_fix_branches|].
    - eapply children_weaken; [|apply children_fix_branches].
      intros d c [? _]. by left.
    - intros _. eapply children_weaken; [|apply children_convert].
      intros d c ?. by right. }
  exists (os_urandom (urandom_reads w0) 16), (new0 ++ new1).
  rewrite Hcalls2. simpl. rewrite Hcalls0, app_assoc. split; [done|].
  apply Forall_app. split.
  - eapply Forall_impl; [done|]. by intros c ?.
  - eapply Forall_impl; [done|]. intros c [?|?]; [|by eauto].
    right; right. congruence.
Qed.

(** X16.  When [convert] returns, it has run two child processes in the
    destination and nothing else has changed: the export script under the
    given shell, with the path of the copy and the extra arguments as they
    were given, in an environment that differs from the one of the script
    by [PYTHON] and by the directory of the export scripts put before
    [PATH]; then [git checkout master]. *)
Theorem convert_success_calls `{Platform} (hg_repo_copy git_repo : string)
    (fast_export_args : list string) (bash : string) (w w' : World) :
  convert hg_repo_copy git_repo fast_export_args bash w = (Ok tt, w') →
  ∃ env,
    w' = add_call {| call_cwd := git_repo;
                     call_argv := ["git"; "checkout"; "master"];
                     call_env := None |}
           (add_call {| call_cwd := git_repo;
                        call_argv := [bash; "hg-fast-export.sh"; "-r";
                                      hg_repo_copy] ++ fast_export_args;
                        call_env := Some env |} w) ∧
    env !! "PYTHON" = Some sys_executable ∧
    env !! "PATH" = Some (FAST_EXPORT_DIR +:+ os_pathsep +:+
                          default "" (os_environ !! "PATH")) ∧
    ∀ k, k ≠ "PYTHON" → k ≠ "PATH" → env !! k = os_environ !! k.
Proof.
  unfold convert, switch_directory, mbind at 1, M_bind at 1, os_getcwd.
  destruct (fs w !! cwd w) as [[]|] eqn:Ecwd; [done| |done].
  unfold try_finally, mbind at 1, M_bind at 1, os_chdir at 1.
  destruct (fs w !! git_repo) as [[]|] eqn:Erepo; simpl;
    [by unfold os_chdir; rewrite Ecwd| |by unfold os_chdir; rewrite Ecwd].
  unfold check_call_env at 1, mbind, M_bind, run_child. simpl.
  case_decide; simpl; [|by unfold os_chdir; simpl; rewrite Ecwd].
  unfold subprocess_check_call, check_call_env, mbind, M_bind, run_child. simpl.
  case_decide; simpl; unfold os_chdir; simpl; rewrite Ecwd; [|done].
  intros [= <-]. eexists. split_and!.
  - by destruct w.
  - by rewrite lookup_insert_ne, lookup_insert_eq.
  - rewrite lookup_insert_eq. by rewrite lookup_insert_ne.
  - intros k ??. by rewrite !lookup_insert_ne.
Qed.

(** * More on the command line *)

Section more_command_line.
Context `{Platform}.

(** The loop of [main] on a platform that is not [nt], from index [i] on:
    it passes the arguments that do not start with [--bash] and stops at
    the first that does. *)
Lemma scan_bash_at_flag (front pre post : list string) (arg : string)
    (i : nat) (BASH : option string) (w : World) :
  os_name ≠ "nt" →
  sys_argv w = front ++ pre ++ arg :: post →
  length front = i →
  Forall no_bash_flag pre →
  String.prefix "--bash" arg = true →
  scan_bash i (pre ++ arg :: post) BASH w =
    (match split_eq_once arg !! 1%nat with
     | Some value => Ok (Some value)
     | None => Raise IndexError
     end, set_sys_argv (front ++ pre ++ post) w).
Proof.
  intros Hnt Hargv Hlen Hpre Harg.
  revert front i BASH Hargv Hlen.
  induction Hpre as [|a pre Ha Hpre IH]; intros front i BASH Hargv Hlen; simpl.
  - rewrite Harg. unfold mbind, M_bind. simpl in Hargv.
    rewrite Hargv, <- Hlen, delete_middle.
    by destruct (split_eq_once arg !! 1%nat).
  - unfold no_bash_flag in Ha. rewrite Ha. unfold mbind, M_bind.
    rewrite decide_False by done. simpl.
    rewrite (IH (front ++ [a]) (S i)).
    + by rewrite <- !app_assoc.
    + by rewrite <- app_assoc.
    + rewrite length_app. simpl. lia.
Qed.

Lemma scan_bash_no_flag (args : list string) (i : nat)
    (BASH : option string) (w : World) :
  os_name ≠ "nt" →
  Forall no_bash_flag args →
  scan_bash i args BASH w =
    (Ok (match args with [] => BASH | _ => Some "/bin/bash" end), w).
Proof.
  intros Hnt Hargs. revert i BASH.
  induction Hargs as [|a args Ha Hargs IH]; intros i BASH; simpl; [done|].
  unfold no_bash_flag in Ha. rewrite Ha. unfold mbind, M_bind.
  rewrite decide_False by done. simpl. rewrite IH. by destruct args.
Qed.

Lemma map_each_pure {A B} (args : list A) (body : A → M B) (w : World) :
  (∀ a, ∃ b, body a w = (Ok b, w)) →
  ∃ bs, map_each args body w = (Ok bs, w).
Proof.
  intros Hbody. induction args as [|a args [bs IH]]; simpl; [by eexists|].
  unfold mbind, M_bind. destruct (Hbody a) as [b ->]. rewrite IH.
  by eexists.
Qed.

Lemma process_repo_existing hg_repo git_repo fast_export_args bash w :
  is_Some (fs w !! git_repo) →
  process_repo hg_repo git_repo fast_export_args bash w =
    (Raise (SystemExit 1), add_stdout (already_exists_msg git_repo) w).
Proof.
  intros Hex. unfold process_repo, init_git_repo, mbind, M_bind, os_path_exists.
  by rewrite bool_decide_eq_true_2.
Qed.

End more_command_line.

(** X17.  On a platform that is not [nt], [main] takes the shell from the
    first argument that starts with [--bash]: for an argument [key=value]
    it is [value], whatever follows [--bash] in [key], and the argument,
    and only it, is removed from [sys.argv]. *)
Theorem scan_bash_takes_flag `{Platform} (pre post : list string)
    (key value : string) (w : World) :
  os_name ≠ "nt" →
  sys_argv w = pre ++ (key +:+ String "=" value) :: post →
  Forall no_bash_flag pre →
  String.prefix "--bash" key = true →
  lacks "=" key →
  scan_bash 0 (sys_argv w) None w =
    (Ok (Some value), set_sys_argv (pre ++ post) w).
Proof.
  intros Hnt Hargv Hpre Hkey Hlacks. rewrite Hargv at 1.
  rewrite (scan_bash_at_flag [] pre post); [|done..|by apply prefix_app].
  by rewrite split_eq_once_app.
Qed.

(** X18.  An argument that starts with [--bash] and has no [=] makes
    [main] raise [IndexError], on a platform that is not [nt]; the
    argument is removed from [sys.argv] before. *)
Theorem scan_bash_flag_without_value `{Platform} (pre post : list string)
    (arg : string) (w : World) :
  os_name ≠ "nt" →
  sys_argv w = pre ++ arg :: post →
  Forall no_bash_flag pre →
  String.prefix "--bash" arg = true →
  lacks "=" arg →
  scan_bash 0 (sys_argv w) None w =
    (Raise IndexError, set_sys_argv (pre ++ post) w).
Proof.
  intros Hnt Hargv Hpre Harg Hlacks. rewrite Hargv at 1.
  rewrite (scan_bash_at_flag [] pre post); [|done..].
  by rewrite split_eq_once_lacks.
Qed.

(** X19.  With fewer than two arguments and none that starts with
    [--bash], on a platform that is not [nt], [main] writes that the
    mapping file is missing and exits with status 1; nothing else
    changes. *)
Theorem main_missing_mapping_file `{Platform} (w : World) :
  os_name ≠ "nt" →
  Forall no_bash_flag (sys_argv w) →
  (length (sys_argv w) ≤ 1)%nat →
  main w = (Raise (SystemExit 1), add_stderr missing_mapping_msg w).
Proof.
  intros Hnt Hargs Hlen. unfold main, mbind, M_bind.
  rewrite scan_bash_no_flag by done.
  destruct (sys_argv w) as [|script [|file args]] eqn:Hargv;
    rewrite ?Hargv; simpl in *; [done..|lia].
Qed.

(** X20.  On a platform that is not [nt] and without a [--bash] argument,
    when the destination of the first pair of the mapping file exists,
    [main] prints the message of [init_git_repo] and exits with status 1:
    no child process is run, no path changes, and no other pair is
    looked at. *)
Theorem main_existing_destination `{Platform} (w : World)
    (script file hg git : string) (args : list string)
    (more : list (string * string)) :
  os_name ≠ "nt" →
  sys_argv w = script :: file :: args →
  Forall no_bash_flag (script :: file :: args) →
  json_load_file (os_path_abspath (cwd w) file) = Some ((hg, git) :: more) →
  is_Some (fs w !! os_path_join
                     (os_path_dirname (os_path_abspath (cwd w) file)) git) →
  main w =
    (Raise (SystemExit 1),
     add_stdout
       (already_exists_msg
          (os_path_join (os_path_dirname (os_path_abspath (cwd w) file)) git))
       w).
Proof.
  intros Hnt Hargv Hargs Hmap Hex.
  unfold main, mbind, M_bind.
  rewrite scan_bash_no_flag; [|done|by rewrite Hargv].
  rewrite Hargv. simpl. unfold abspath at 1. rewrite Hmap. simpl.
  match goal with |- context [map_each ?l ?body w] =>
    destruct (map_each_pure l body w) as [args' ->]
  end.
  { intros a. destruct (bool_decide _); by eexists. }
  unfold mbind, M_bind. by rewrite process_repo_existing.
Qed.

(** * A run without failure *)

Section all_children_succeed.
Context `{Platform}.
Hypothesis child_ok : ∀ history c, (child history c).1 = 0.
Hypothesis json_ok : ∀ output, is_Some (json_loads output).












End all_children_succeed.


(** * Instances of the further properties *)

Lemma primary_head_is_newest_witness :
  head (filter (at_time 30) (filter (on_branch "default") tied_newest)) =
    Some (mk_head "h2" "default" 30 (Some "foo")).
Proof.
  destruct (primary_head_is_newest tied_newest "default"
              (mk_head "h2" "default" 30 (Some "foo"))
              [mk_head "h3" "default" 30 None; mk_head "h1" "default" 20 None])
    as [_ Hhead].
  - vm_compute. reflexivity.
  - exact Hhead.
Defined.

Lemma synthesized_name_leaves_branch_witness :
  "default-anonymous-1" ≠ branch (mk_head "h3" "default" 10 None).
Proof.
  destruct (synthesized_name_leaves_branch bookmarked_then_unnamed
              (mk_head "h3" "default" 10 None) "default-anonymous-1")
    as [Hne _].
  - by_decide.
  - reflexivity.
  - exact Hne.
Defined.

Lemma switch_directory_runs_block_witness :
  switch_directory "/src/repo"
    (@subprocess_check_call posix_example ["hg"; "id"])
    (example_world [] ["/src/repo"]) =
  (Ok tt,
   add_call {| call_cwd := "/src/repo"; call_argv := ["hg"; "id"];
               call_env := None |} (example_world [] ["/src/repo"])).
Proof.
  apply (@switch_directory_runs_block unit "/src/repo"
           (@subprocess_check_call posix_example ["hg"; "id"])
           (example_world [] ["/src/repo"])
           (add_call {| call_cwd := "/src/repo"; call_argv := ["hg"; "id"];
                        call_env := None |}
              (set_cwd "/src/repo" (example_world [] ["/src/repo"])))
           (Ok tt)).
  - vm_compute. reflexivity.
  - vm_compute. reflexivity.
  - apply keeps_cwd_check_call.
  - vm_compute. reflexivity.
Defined.

Lemma switch_directory_missing_target_witness :
  ∃ errno,
    switch_directory "/nowhere"
      (@subprocess_check_call posix_example ["hg"; "id"])
      (example_world [] []) =
    (Raise (OSError errno), example_world [] []).
Proof.
  apply (@switch_directory_missing_target unit "/nowhere").
  by_decide.
Defined.

Lemma init_git_repo_creates_destination_witness :
  fs (@init_git_repo posix_example "/out/repo" (example_world [] [])).2
    !! "/out/repo" = Some Dir.
Proof.
  destruct (@init_git_repo_creates_destination posix_example "/out/repo"
              (example_world [] [])) as (_ & Hmade & _).
  - vm_compute. reflexivity.
  - apply Hmade. vm_compute. reflexivity.
Defined.

(** The directory above the destination is made with it. *)
Example init_git_repo_makes_parents :
  fs (@init_git_repo posix_example "/out/repo" (example_world [] [])).2 =
    dirs ["/work"; "/tmp"; "/out"; "/out/repo"].
Proof. vm_compute. reflexivity. Qed.

(** Under a file [init_git_repo] raises [ENOTDIR]: nothing is made and no
    child process is run. *)
Example init_git_repo_under_file :
  let w := set_fs (<["/out":=File]> (fs (example_world [] [])))
             (example_world [] []) in
  @init_git_repo posix_example "/out/repo" w = (Raise (OSError ENOTDIR), w).
Proof. vm_compute. reflexivity. Qed.

(** When an entry of the source cannot be copied, [process_repo] ends
    with [shutil.Error] before its [try], and what was copied stays in the
    temporary directory. *)
Example process_repo_leaves_partial_copy :
  let r := @process_repo (with_copy_errors posix_example) "/src/repo"
             "/out/repo" [] "/bin/bash" (example_world [] ["/src/repo"]) in
  r.1 = Raise ShutilError ∧
  fs r.2 !! "/tmp/repo-2a2a2a2a2a2a2a2a2a2a2a2a2a2a2a2a" = Some Dir.
Proof. split; vm_compute; reflexivity. Qed.

Lemma get_heads_outcomes_witness :
  @get_heads posix_example "/src/repo" (example_world [] ["/src/repo"]) =
  (Ok (head_records three_heads),
   add_call {| call_cwd := "/src/repo"; call_argv := hg_heads_cmd;
               call_env := None |} (example_world [] ["/src/repo"])).
Proof.
  apply (@get_heads_outcomes posix_example "/src/repo"
           (example_world [] ["/src/repo"])).
  - vm_compute. reflexivity.
  - vm_compute. reflexivity.
Defined.

Lemma convert_success_calls_witness :
  call_argv <$>
    calls (@convert posix_example "/tmp/copy" "/out/repo" ["--force"]
             "/bin/bash" (example_world [] ["/out/repo"])).2 =
  [["/bin/bash"; "hg-fast-export.sh"; "-r"; "/tmp/copy"; "--force"];
   ["git"; "checkout"; "master"]].
Proof.
  destruct (@convert_success_calls posix_example "/tmp/copy" "/out/repo"
              ["--force"] "/bin/bash" (example_world [] ["/out/repo"])
              (@convert posix_example "/tmp/copy" "/out/repo" ["--force"]
                 "/bin/bash" (example_world [] ["/out/repo"])).2)
    as (env & Hw & _).
  - vm_compute. reflexivity.
  - rewrite Hw. reflexivity.
Defined.

Lemma scan_bash_takes_flag_witness :
  @scan_bash posix_example 0 argv_bash_path None
    (example_world argv_bash_path []) =
  (Ok (Some "/usr/local/bin/bash"),
   set_sys_argv ["exporter.py"; "-x"; "repos.json"]
     (example_world argv_bash_path [])).
Proof.
  apply (@scan_bash_takes_flag posix_example ["exporter.py"; "-x"]
           ["repos.json"] "--bash-path" "/usr/local/bin/bash"
           (example_world argv_bash_path [])).
  - discriminate.
  - reflexivity.
  - by repeat constructor.
  - reflexivity.
  - by repeat split.
Defined.

Lemma scan_bash_flag_without_value_witness :
  @scan_bash posix_example 0 ["exporter.py"; "--bash"; "repos.json"] None
    (example_world ["exporter.py"; "--bash"; "repos.json"] []) =
  (Raise IndexError,
   set_sys_argv ["exporter.py"; "repos.json"]
     (example_world ["exporter.py"; "--bash"; "repos.json"] [])).
Proof.
  apply (@scan_bash_flag_without_value posix_example ["exporter.py"]
           ["repos.json"] "--bash"
           (example_world ["exporter.py"; "--bash"; "repos.json"] [])).
  - discriminate.
  - reflexivity.
  - by repeat constructor.
  - reflexivity.
  - by repeat split.
Defined.

Lemma main_missing_mapping_file_witness :
  @main posix_example (example_world ["exporter.py"] []) =
  (Raise (SystemExit 1),
   add_stderr missing_mapping_msg (example_world ["exporter.py"] [])).
Proof.
  apply (@main_missing_mapping_file posix_example).
  - discriminate.
  - by repeat constructor.
  - simpl. lia.
Defined.

Lemma main_existing_destination_witness :
  @main posix_example
    (example_world ["exporter.py"; "repos.json"] ["/work/out/repo"]) =
  (Raise (SystemExit 1),
   add_stdout (already_exists_msg "/work/out/repo")
     (example_world ["exporter.py"; "repos.json"] ["/work/out/repo"])).
Proof.
  apply (@main_existing_destination posix_example
           (example_world ["exporter.py"; "repos.json"] ["/work/out/repo"])
           "exporter.py" "repos.json" "src/repo" "out/repo" [] []).
  - discriminate.
  - reflexivity.
  - by repeat constructor.
  - reflexivity.
  - by_decide.
Defined.

